(** * MAFA agents: request orchestration and resilience layer

  A shallow embedding of the parts of [API.py], [http_client.py] and
  [tools/investment_strategy_tools.py] that carry the rate limiter, the
  request context (bearer token and GET cache), the WebSocket connection
  manager, the parallel fetch helper, the query validator, the endpoint
  cleanup and the health check, followed by the properties proved of them. *)

From stdpp Require Import gmap strings list sorting.
From Stdlib Require Import ZArith Lia.

Open Scope Z_scope.

(** ** Part I: the embedding *)

(** *** [API.py]: [class RateLimiter]

  [time.time()] is the one input the class reads from its environment; it is
  passed to every method as [now].  Timestamps are clock readings in [Z]
  (ticks of the clock); the code only subtracts and compares them. *)

Module RateLimiter.

Record t := mk {
  max_requests : Z;
  window_seconds : Z;
  _requests : gmap string (list Z);
  _last_cleanup : Z
}.

(** [__init__]: an empty [defaultdict(list)] and [_last_cleanup = 0.0]. *)
Definition init (max_requests window_seconds : Z) : t :=
  mk max_requests window_seconds ∅ 0.

(** [not v or v[-1] < cutoff] *)
Definition stale (cutoff : Z) (v : list Z) : bool :=
  match last v with
  | None => true
  | Some t => bool_decide (t < cutoff)
  end.

(** [_maybe_cleanup]: at most once per 300 ticks, delete the stale keys. *)
Definition _maybe_cleanup (self : t) (now : Z) : t :=
  if bool_decide (now - _last_cleanup self < 300) then self
  else
    let cutoff := now - window_seconds self in
    mk (max_requests self) (window_seconds self)
       (filter (λ kv, stale cutoff kv.2 = false) (_requests self))
       now.

(** [self._requests[key]] on a [defaultdict(list)]: a missing key reads as
    the empty list. *)
Definition requests_of (self : t) (key : string) : list Z :=
  default [] (_requests self !! key).

(** [is_allowed]: the result and the limiter after the call. *)
Definition is_allowed (self : t) (key : string) (now : Z) : bool * t :=
  let self := _maybe_cleanup self now in
  let window_start := now - window_seconds self in
  let kept := filter (λ t, window_start < t) (requests_of self key) in
  if bool_decide (max_requests self ≤ Z.of_nat (length kept)) then
    (false,
     mk (max_requests self) (window_seconds self)
        (<[key := kept]> (_requests self)) (_last_cleanup self))
  else
    (true,
     mk (max_requests self) (window_seconds self)
        (<[key := kept ++ [now]]> (_requests self)) (_last_cleanup self)).

(** A sequence of calls [is_allowed(key)] at the given clock readings, in
    order: the answers and the final limiter. *)
Fixpoint run (self : t) (calls : list (string * Z)) : list bool * t :=
  match calls with
  | [] => ([], self)
  | (key, now) :: rest =>
      let '(b, self1) := is_allowed self key now in
      let '(bs, self2) := run self1 rest in
      (b :: bs, self2)
  end.

(** The admission times of [key] in a sequence of calls: the clock readings
    of the calls for [key] that were answered [True]. *)
Fixpoint admitted (key : string) (calls : list (string * Z))
    (answers : list bool) : list Z :=
  match calls, answers with
  | (k, now) :: calls, b :: answers =>
      if bool_decide (k = key) && b
      then now :: admitted key calls answers
      else admitted key calls answers
  | _, _ => []
  end.

(** The clock never runs backwards over a sequence of calls that starts no
    earlier than [t0]. *)
Fixpoint clock_ok (t0 : Z) (calls : list (string * Z)) : Prop :=
  match calls with
  | [] => True
  | (_, now) :: rest => t0 ≤ now ∧ clock_ok now rest
  end.

(** The admission times that fall in the trailing window ending at [T]. *)
Definition in_window (w T : Z) (times : list Z) : list Z :=
  filter (λ t, T - w < t ∧ t ≤ T) times.

(** What the stored list of [key] has to do with the admission times
    [hist] of [key] so far, at clock reading [tnow]: the stored list is what
    is left of [hist] after dropping a prefix that is already out of every
    window from now on; no window of [hist] holds more than [max_requests]
    admissions. *)
Record inv (key : string) (self : t) (hist : list Z) (tnow : Z) : Prop := {
  inv_le : Forall (λ x, x ≤ tnow) hist;
  inv_sorted : StronglySorted Z.le hist;
  inv_suffix : ∃ pre, hist = pre ++ requests_of self key
                 ∧ Forall (λ x, x ≤ tnow - window_seconds self) pre;
  inv_rate : ∀ T, Z.of_nat (length (in_window (window_seconds self) T hist))
               ≤ max_requests self
}.

End RateLimiter.

(** *** Python strings, over ASCII

    [str.upper], [str.lower], [str.strip], [in] and [startswith] on strings
    of ASCII characters. *)

Module PyStr.

Definition upper_ascii (a : Ascii.ascii) : Ascii.ascii :=
  let n := Ascii.nat_of_ascii a in
  if ((97 <=? n) && (n <=? 122))%nat then Ascii.ascii_of_nat (n - 32) else a.

Definition lower_ascii (a : Ascii.ascii) : Ascii.ascii :=
  let n := Ascii.nat_of_ascii a in
  if ((65 <=? n) && (n <=? 90))%nat then Ascii.ascii_of_nat (n + 32) else a.

Fixpoint map_string (f : Ascii.ascii → Ascii.ascii) (s : string) : string :=
  match s with
  | EmptyString => EmptyString
  | String a s => String (f a) (map_string f s)
  end.

Definition upper : string → string := map_string upper_ascii.
Definition lower : string → string := map_string lower_ascii.

(** [s.startswith(p)] *)
Definition startswith (p s : string) : bool := String.prefix p s.

(** [p in s]: [p] occurs in [s] as a substring. *)
Fixpoint contains (p s : string) : bool :=
  String.prefix p s ||
  match s with
  | EmptyString => false
  | String _ s' => contains p s'
  end.

(** The ASCII characters for which [str.isspace] holds. *)
Definition isspace (a : Ascii.ascii) : bool :=
  let n := Ascii.nat_of_ascii a in
  ((9 <=? n) && (n <=? 13) || (28 <=? n) && (n <=? 32))%nat.

Fixpoint lstrip (s : string) : string :=
  match s with
  | String a s' => if isspace a then lstrip s' else s
  | EmptyString => EmptyString
  end.

Fixpoint rstrip (s : string) : string :=
  match s with
  | EmptyString => EmptyString
  | String a s' =>
      match rstrip s' with
      | EmptyString => if isspace a then EmptyString else String a EmptyString
      | r => String a r
      end
  end.

Definition strip (s : string) : string := rstrip (lstrip s).

(** Some character of the string is a lower-case ASCII letter. *)
Fixpoint has_lower (p : string) : bool :=
  match p with
  | EmptyString => false
  | String a p =>
      ((97 <=? Ascii.nat_of_ascii a) && (Ascii.nat_of_ascii a <=? 122))%nat
      || has_lower p
  end.

End PyStr.

(** *** Outcomes of Python calls

    A call returns a value, raises an [Exception], or raises a
    [BaseException] that is no [Exception] ([KeyboardInterrupt],
    [asyncio.CancelledError], ...), which [except Exception] lets through. *)

Inductive outcome (A : Type) : Type :=
| Returned (a : A)
| Raised (e : string)
| RaisedBase (e : string).
Arguments Returned {A} a.
Arguments Raised {A} e.
Arguments RaisedBase {A} e.

(** *** [http_client.py] *)

Module HttpClient.

(** [requests.Response], as far as this layer looks into it. *)
Record Response := mkResponse {
  status_code : Z;
  text : string
}.

(** [Response.ok]: [raise_for_status()] does not raise, that is, the status is
    not in [400 .. 599]. *)
Definition ok (r : Response) : bool :=
  negb (bool_decide (400 ≤ status_code r ∧ status_code r < 600)).

(** An outbound call as handed to [_session]. *)
Record Request := mkRequest {
  method : string;
  url : string;
  headers : gmap string string;
  timeout : Z
}.

(** One [contextvars.Context]: the values of the two context variables of
    this module, both with default [None].  The cache variable holds a
    reference to a dict, not the dict. *)
Record Context := mkContext {
  _request_token : option string;
  _request_cache : option nat
}.

Definition default_context : Context := mkContext None None.

(** The interpreter state this module works on: the contexts by identity,
    the dicts by address, and the calls that went out through [_session]. *)
Record World := mkWorld {
  contexts : gmap nat Context;
  dicts : gmap nat (gmap string Response);
  sent : list Request
}.

Definition empty_world : World := mkWorld ∅ ∅ [].

(** The context with identity [c]; a context that never set a variable
    reads the defaults. *)
Definition context_of (w : World) (c : nat) : Context :=
  default default_context (contexts w !! c).

Definition set_context (c : nat) (x : Context) (w : World) : World :=
  mkWorld (<[c := x]> (contexts w)) (dicts w) (sent w).

(** [_request_token.get()] in context [c]. *)
Definition request_token_get (w : World) (c : nat) : option string :=
  _request_token (context_of w c).

(** [_request_cache.get()] in context [c]. *)
Definition request_cache_get (w : World) (c : nat) : option nat :=
  _request_cache (context_of w c).

(** [set_request_token(token)], called in context [c]. *)
Definition set_request_token (c : nat) (token : option string) (w : World)
    : World :=
  set_context c (mkContext token (_request_cache (context_of w c))) w.

(** [init_request_cache()]: [_request_cache.set({})], a new empty dict. *)
Definition init_request_cache (c : nat) (w : World) : World :=
  let d := fresh (dom (dicts w)) in
  mkWorld (<[c := mkContext (_request_token (context_of w c)) (Some d)]>
             (contexts w))
          (<[d := ∅]> (dicts w)) (sent w).

(** [clear_request_cache()]: [_request_cache.set(None)]. *)
Definition clear_request_cache (c : nat) (w : World) : World :=
  set_context c (mkContext (_request_token (context_of w c)) None) w.

(** [contextvars.copy_context()] called in context [c]: the new context
    [c'] starts with the values [c] has now (the dict is shared, the
    bindings are not). *)
Definition copy_context (c c' : nat) (w : World) : World :=
  set_context c' (context_of w c) w.

(** [_session.headers] *)
Definition session_headers : gmap string string :=
  {[ "Content-Type" := "application/json";
     "User-Agent" := "MCP-FinancialAgent/1.0" ]}.

Definition DEFAULT_TIMEOUT : Z := 15.

(** Python truthiness of an [Optional[str]]: [None] and [""] are false. *)
Definition truthy (t : option string) : option string :=
  match t with
  | Some EmptyString => None
  | t => t
  end.

(** [get_auth_headers(token)] in context [c]. *)
Definition get_auth_headers (w : World) (c : nat) (token : option string)
    : gmap string string :=
  let use_token :=
    match truthy token with
    | Some t => Some t
    | None => request_token_get w c       (* [token or _request_token.get()] *)
    end in
  match truthy use_token with
  | Some t =>
      <["Authorization" :=
          if PyStr.startswith "bearer " (PyStr.lower t) then t
          else String.append "Bearer " t]> session_headers
  | None => session_headers
  end.

(** [_merge_headers(headers)]: the caller's headers win. *)
Definition _merge_headers (w : World) (c : nat)
    (hdrs : option (gmap string string)) : gmap string string :=
  match hdrs with
  | Some h => h ∪ get_auth_headers w c None
  | None => get_auth_headers w c None
  end.

(** [_apply_timeout(kwargs)] *)
Definition _apply_timeout (t : option Z) : Z := default DEFAULT_TIMEOUT t.

(** The request [get] hands to the session. *)
Definition get_request (w : World) (c : nat) (u : string)
    (hdrs : option (gmap string string)) (tmo : option Z) : Request :=
  mkRequest "GET" u (_merge_headers w c hdrs) (_apply_timeout tmo).

Section session.

(** [_session.request]: what the mounted adapter and the backend answer to
    a call, given the calls that went out before it: a response, or a
    [requests] exception. *)
Variable session_send : list Request → Request → outcome Response.

(** [_session.get/post/put/delete]: the call goes out and is logged. *)
Definition session_call (r : Request) (w : World)
    : outcome Response * World :=
  (session_send (sent w) r,
   mkWorld (contexts w) (dicts w) (sent w ++ [r])).

(** [cache is not None and url in cache], and then [cache[url]]. *)
Definition cached_response (w : World) (cache : option nat) (u : string)
    : option Response :=
  match cache with
  | Some d =>
      match dicts w !! d with
      | Some m => m !! u
      | None => None
      end
  | None => None
  end.

(** [get(url, headers=..., timeout=...)] called in context [c]. *)
Definition get (c : nat) (u : string) (hdrs : option (gmap string string))
    (tmo : option Z) (w : World) : outcome Response * World :=
  let cache := request_cache_get w c in
  match cached_response w cache u with
  | Some cached => (Returned cached, w)
  | None =>
      let '(res, w1) := session_call (get_request w c u hdrs tmo) w in
      match res, cache with
      | Returned response, Some d =>
          if ok response then
            (res, mkWorld (contexts w1)
                          (alter (λ m, <[u := response]> m) d (dicts w1))
                          (sent w1))
          else (res, w1)
      | _, _ => (res, w1)
      end
  end.

Definition post (c : nat) (u : string) (hdrs : option (gmap string string))
    (tmo : option Z) (w : World) : outcome Response * World :=
  session_call
    (mkRequest "POST" u (_merge_headers w c hdrs) (_apply_timeout tmo)) w.

Definition put (c : nat) (u : string) (hdrs : option (gmap string string))
    (tmo : option Z) (w : World) : outcome Response * World :=
  session_call
    (mkRequest "PUT" u (_merge_headers w c hdrs) (_apply_timeout tmo)) w.

Definition delete (c : nat) (u : string) (hdrs : option (gmap string string))
    (tmo : option Z) (w : World) : outcome Response * World :=
  session_call
    (mkRequest "DELETE" u (_merge_headers w c hdrs) (_apply_timeout tmo)) w.

End session.

(** The GET cache of context [c] is enabled and its dict is [m]. *)
Definition cache_active (w : World) (c : nat) (m : gmap string Response)
    : Prop :=
  ∃ d, request_cache_get w c = Some d ∧ dicts w !! d = Some m.

(** Every response stored in a cache dict is a successful one. *)
Definition cache_ok (w : World) : Prop :=
  ∀ d m u r, dicts w !! d = Some m → m !! u = Some r → ok r = true.

End HttpClient.

(** *** Concurrent request flows over [http_client.py]

    Every inbound request runs in a context of its own, and every worker of
    [_fetch_parallel] in a copy of its caller's context.  A run of the
    service is a sequence of steps, each made in one context; the steps of
    different requests interleave in any order. *)

Module Flows.
Import HttpClient.

Inductive action :=
| SetToken (token : option string)       (* [set_request_token(token)] *)
| InitCache                              (* [init_request_cache()] *)
| ClearCache                             (* [clear_request_cache()] *)
| CopyContext (child : nat)              (* [contextvars.copy_context()] *)
| Get (u : string).                      (* [get(u)] *)

(** A step: the context it is made in, and what it does. *)
Definition event : Type := nat * action.

Section session.
Variable session_send : list Request → Request → outcome Response.

Definition step (w : World) (e : event) : World :=
  match e with
  | (c, SetToken token) => set_request_token c token w
  | (c, InitCache) => init_request_cache c w
  | (c, ClearCache) => clear_request_cache c w
  | (c, CopyContext child) => copy_context c child w
  | (c, Get u) => (get session_send c u None None w).2
  end.

Definition run (w : World) (trace : list event) : World :=
  foldl step w trace.

End session.

(** The step is made in context [c]. *)
Definition runs_in (c : nat) (e : event) : Prop := e.1 = c.

#[global] Instance runs_in_dec (c : nat) (e : event) : Decision (runs_in c e) :=
  decide (e.1 = c).

(** The credential request [c] holds after a run, read off the steps of [c]
    alone: the token of its last [set_request_token], or [before] when it
    made none. *)
Fixpoint attached (c : nat) (trace : list event) (before : option string)
    : option string :=
  match trace with
  | [] => before
  | (c', SetToken token) :: trace =>
      attached c trace (if decide (c' = c) then token else before)
  | _ :: trace => attached c trace before
  end.

(** The step copies some context into [c]. *)
Definition copies_into (c : nat) (e : event) : Prop :=
  ∃ parent, e = (parent, CopyContext c).

(** A backend that answers every call with 200, and one that answers every
    call with 500. *)
Definition always_ok (_ : list Request) (r : Request) : outcome Response :=
  Returned (mkResponse 200 (url r)).
Definition always_500 (_ : list Request) (r : Request) : outcome Response :=
  Returned (mkResponse 500 "Internal Server Error").

End Flows.

(** *** [http_client.py]: [_retry_strategy]

    The adapter hands every call to urllib3 with this [Retry] object; the
    loop is urllib3's [urlopen] with [Retry.is_retry], [Retry.increment],
    [Retry.is_exhausted] and [Retry.get_backoff_time] as the library
    documents them: [total] is the number of retries allowed after the first
    attempt, and the pause before a retry is
    [backoff_factor * 2 ** (consecutive errors - 1)], none after the first
    error.  Time is in milliseconds.  The model covers the calls in which
    every attempt is answered with a response that carries no [Retry-After]
    header; connection and read errors are outside it. *)

Module Retry.

Record t := mk {
  total : Z;
  backoff_factor : Z;
  status_forcelist : list Z;
  allowed_methods : list string;
  raise_on_status : bool;
  history : nat                 (* [len(self.history)] *)
}.

Definition _retry_strategy : t :=
  mk 3 500 [502; 503; 504] ["GET"; "POST"; "PUT"; "DELETE"] false 0.

(** [Retry.DEFAULT_BACKOFF_MAX], 120 s. *)
Definition BACKOFF_MAX : Z := 120000.

(** [Retry.is_retry(method, status_code)] *)
Definition is_retry (r : t) (method : string) (status : Z) : bool :=
  bool_decide (method ∈ allowed_methods r)
  && bool_decide (status ∈ status_forcelist r).

(** [Retry.is_exhausted()]: only [total] is set. *)
Definition is_exhausted (r : t) : bool := bool_decide (total r < 0).

(** [Retry.increment(...)]: [None] stands for [MaxRetryError]. *)
Definition increment (r : t) : option t :=
  let r' := mk (total r - 1) (backoff_factor r) (status_forcelist r)
               (allowed_methods r) (raise_on_status r) (S (history r)) in
  if is_exhausted r' then None else Some r'.

(** [Retry.get_backoff_time()] *)
Definition get_backoff_time (r : t) : Z :=
  if bool_decide (history r ≤ 1)%nat then 0
  else Z.min BACKOFF_MAX (backoff_factor r * 2 ^ (Z.of_nat (history r) - 1)).

(** What one call through the adapter did: the status it ended with (or
    [MaxRetryError]), the number of requests sent, the pauses between them. *)
Record run := mkRun {
  result : outcome Z;
  attempts : nat;
  sleeps : list Z
}.

(** [HTTPConnectionPool.urlopen]: [answers] are the statuses the backend
    gives to the successive attempts.  [None]: the backend was asked more
    often than [answers] provides for. *)
Fixpoint urlopen (r : t) (method : string) (answers : list Z) : option run :=
  match answers with
  | [] => None
  | status :: rest =>
      if is_retry r method status then
        match increment r with
        | None =>
            Some (mkRun (if raise_on_status r then Raised "MaxRetryError"
                         else Returned status) 1 [])
        | Some r' =>
            match urlopen r' method rest with
            | Some x =>
                Some (mkRun (result x) (S (attempts x))
                            (get_backoff_time r' :: sleeps x))
            | None => None
            end
        end
      else Some (mkRun (Returned status) 1 [])
  end.

End Retry.

(** *** [API.py]: [class ConnectionManager] *)

Module ConnectionManager.

(** A [WebSocket] is known by its identity. *)
Record t := mk { active_connections : list nat }.

(** What a broadcast leaves behind besides the registry: the pushes that
    went through, and the errors logged. *)
Record effects := mkEffects {
  delivered : list (nat * string);
  logged : list (nat * string)
}.

(** [disconnect]: [list.remove] takes out the first occurrence. *)
Fixpoint remove (x : nat) (l : list nat) : list nat :=
  match l with
  | [] => []
  | y :: l => if decide (x = y) then l else y :: remove x l
  end.

Definition connect (self : t) (websocket : nat) : t :=
  mk (active_connections self ++ [websocket]).

Definition disconnect (self : t) (websocket : nat) : t :=
  if bool_decide (websocket ∈ active_connections self)
  then mk (remove websocket (active_connections self))
  else self.

Section sockets.

(** [connection.send_json(message)]: what pushing to a socket does. *)
Variable send_json : nat → string → outcome unit.

(** The loop of [broadcast] over the connections still to visit. *)
Fixpoint broadcast_loop (conns : list nat) (message : string) (eff : effects)
    : outcome unit * effects :=
  match conns with
  | [] => (Returned (), eff)
  | connection :: rest =>
      match send_json connection message with
      | Returned _ =>
          broadcast_loop rest message
            (mkEffects (delivered eff ++ [(connection, message)]) (logged eff))
      | Raised exc =>                      (* [except Exception]: log only *)
          broadcast_loop rest message
            (mkEffects (delivered eff) (logged eff ++ [(connection, exc)]))
      | RaisedBase exc => (RaisedBase exc, eff)
      end
  end.

(** [broadcast]: the outcome, the registry afterwards, the effects. *)
Definition broadcast (self : t) (message : string)
    : outcome unit * t * effects :=
  let '(res, eff) :=
    broadcast_loop (active_connections self) message (mkEffects [] []) in
  (res, self, eff).



End sockets.


End ConnectionManager.

(** *** [tools/investment_strategy_tools.py]: [_fetch_parallel]

    A callable passed to [_fetch_parallel] is run by [ctx.run] in a copy of
    the caller's context and returns or raises; the copy holds the values
    the caller's context has.  What a callable returns or raises is taken
    as given by the context it runs in.  The pool finishes the submitted jobs in an
    order of its own, the [schedule]; a future is [None] until its job is
    done. *)

Module FetchParallel.

Section tasks.
Context {A : Type}.

Definition task : Type := HttpClient.Context → outcome A.
Definition future : Type := option (outcome A).

(** [contextvars.copy_context()] *)
Definition copy_context (ctx : HttpClient.Context) : HttpClient.Context := ctx.

(** The job with index [i] finishes: its future takes its outcome. *)
Definition complete (jobs : list (HttpClient.Context * task))
    (futures : list future) (i : nat) : list future :=
  match jobs !! i with
  | Some (ctx, fn) => <[i := Some (fn ctx)]> futures
  | None => futures
  end.

(** [pool.submit] for every job, then the pool at work. *)
Definition run_pool (jobs : list (HttpClient.Context * task))
    (schedule : list nat) : list future :=
  foldl (complete jobs) (replicate (length jobs) None) schedule.

(** [[f.result() for f in futures]]: the first future that raised ends the
    comprehension; [None] when a future never gets done. *)
Fixpoint join (futures : list future) : option (outcome (list A)) :=
  match futures with
  | [] => Some (Returned [])
  | None :: _ => None
  | Some (Returned a) :: rest =>
      match join rest with
      | Some (Returned l) => Some (Returned (a :: l))
      | r => r
      end
  | Some (Raised e) :: _ => Some (Raised e)
  | Some (RaisedBase e) :: _ => Some (RaisedBase e)
  end.

Definition _fetch_parallel (funcs : list task) (ctx : HttpClient.Context)
    (schedule : list nat) : option (outcome (list A)) :=
  if bool_decide (length funcs ≤ 1)%nat then
    join ((λ f, Some (f ctx)) <$> funcs)
  else
    let contexts := (λ _, copy_context ctx) <$> funcs in
    let futures := run_pool (zip contexts funcs) schedule in
    join futures.

(** Every submitted job finishes exactly once. *)
Definition complete_schedule (funcs : list task) (schedule : list nat) : Prop :=
  schedule ≡ₚ seq 0 (length funcs).

End tasks.

(** Three callables as the strategy tools pass them: one that returns, one
    that reads the bearer token of the context it runs in, one that raises. *)
Definition fetch_dashboard : @task string := λ _, Returned "dashboard".
Definition fetch_with_token : @task string :=
  λ ctx, Returned (default "anonymous" (HttpClient._request_token ctx)).
Definition fetch_failing : @task string := λ _, Raised "HTTPError 500".
(** Another one that raises, with an exception of its own. *)
Definition fetch_failing_late : @task string := λ _, Raised "HTTPError 404".

End FetchParallel.

(** *** [API.py]: [MCPQueryRequest] *)

Module MCPQueryRequest.

Definition dangerous_patterns : list string :=
  ["DROP"; "DELETE"; "TRUNCATE"; "<script>"; "javascript:"].

(** [sanitize_query]: [ValueError] on the first pattern found. *)
Definition sanitize_query (v : string) : outcome string :=
  let v_upper := PyStr.upper v in
  if existsb (λ pattern, PyStr.contains pattern v_upper) dangerous_patterns
  then Raised "Query contains potentially dangerous content"
  else Returned (PyStr.strip v).

(** [query: str = Field(..., min_length=1, max_length=1000)], then the
    validator. *)
Definition validate_query (v : string) : outcome string :=
  if bool_decide (1 ≤ String.length v ≤ 1000)%nat then sanitize_query v
  else Raised "string length out of range".

End MCPQueryRequest.

(** *** [API.py]: the agent endpoints and [/mcp/query] *)

Module Endpoints.
Import HttpClient.

(** A computation on the interpreter state that returns or raises. *)
Definition M (A : Type) : Type := World → outcome A * World.

(** [try: body / except Exception as exc: handler(exc)] *)
Definition try_except {A} (body : M A) (handler : string → M A) : M A :=
  λ w, match body w with
       | (Raised exc, w') => handler exc w'
       | r => r
       end.

(** [try: body / finally: cleanup] with a cleanup that does not raise. *)
Definition try_finally {A} (body : M A) (cleanup : World → World) : M A :=
  λ w, let '(r, w') := body w in (r, cleanup w').

Record payload := mkPayload {
  query : string;
  userId : Z;
  sessionId : option string
}.

(** [{"data": result, "userId": payload.userId}], or the error dict of
    [/mcp/query]. *)
Inductive reply :=
| Data (data : string) (user : Z)
| ErrorDict (error message : string).

(** The five agent endpoints ([/execute-agent], [/investment-strategy-agent],
    [/market-research-agent], [/general-agent], [/portfolio-manager-agent])
    have one body; they differ in the agent they run and in the detail of
    the [HTTPException].  [c] is the context the handler runs in. *)
Definition execute_agent_endpoint
    (run_agent : nat → string → Z → M string) (detail : string)
    (c : nat) (p : payload) (token : string) : M reply :=
  λ w,
    let w := set_request_token c (Some token) w in
    let w := init_request_cache c w in
    try_finally
      (try_except
         (λ w, match run_agent c (query p) (userId p) w with
               | (Returned result, w') => (Returned (Data result (userId p)), w')
               | (Raised e, w') => (Raised e, w')
               | (RaisedBase e, w') => (RaisedBase e, w')
               end)
         (λ exc w, (Raised (String.append "HTTPException 500: " detail), w)))
      (λ w, set_request_token c None (clear_request_cache c w))
      w.

Definition mcp_query_endpoint
    (orchestrate : nat → Z → string → option string → M reply)
    (c : nat) (p : payload) (token : string) : M reply :=
  λ w,
    let w := set_request_token c (Some token) w in
    let w := init_request_cache c w in
    try_finally
      (try_except
         (orchestrate c (userId p) (query p) (sessionId p))
         (λ exc w,
            (Returned
               (ErrorDict "Internal server error"
                  "Failed to process your request. Please try again later."),
             w)))
      (λ w, set_request_token c None (clear_request_cache c w))
      w.

(** A request to [/mcp/query]: the body is validated into an
    [MCPQueryRequest] before the endpoint function is called. *)
Definition mcp_query_request
    (orchestrate : nat → Z → string → option string → M reply)
    (c : nat) (p : payload) (token : string) : M reply :=
  λ w,
    match MCPQueryRequest.validate_query (query p) with
    | Returned q =>
        mcp_query_endpoint orchestrate c
          (mkPayload q (userId p) (sessionId p)) token w
    | Raised e => (Raised (String.append "422 validation error: " e), w)
    | RaisedBase e => (RaisedBase e, w)
    end.

End Endpoints.

(** *** [API.py]: [health_check]

    The four checks come from [monitoring]; each returns a dict, read here
    only through [.get("status")]. *)

Module Health.

Definition status_ok (check : gmap string string) : bool :=
  match check !! "status" with
  | Some st => bool_decide (st = "healthy") || bool_decide (st = "unavailable")
  | None => false                         (* [None in (...)] is false *)
  end.

Definition checks (redis_status supabase_status broker_status mcp_status
    : gmap string string) : gmap string (gmap string string) :=
  {[ "redis" := redis_status; "supabase" := supabase_status;
     "broker_api" := broker_status; "mcp_servers" := mcp_status ]}.

(** [checks[k]]: the keys looked up are keys of [checks]. *)
Definition check_of (cs : gmap string (gmap string string)) (k : string)
    : gmap string string :=
  default ∅ (cs !! k).

(** The ["status"] entry of the dict [health_check] returns. *)
Definition health_check (redis_status supabase_status broker_status mcp_status
    : gmap string string) : string :=
  let cs := checks redis_status supabase_status broker_status mcp_status in
  let critical_healthy :=
    forallb (λ k, status_ok (check_of cs k))
            ["redis"; "supabase"; "mcp_servers"] in
  if critical_healthy then "healthy" else "degraded".

(** Two dicts a check can return. *)
Definition healthy_dict : gmap string string := {[ "status" := "healthy" ]}.
Definition unhealthy_dict : gmap string string := {[ "status" := "unhealthy" ]}.

End Health.

(** *** [API.py]: sequences of [is_allowed] calls, by caller *)

Module RateLimiterTraces.
Import RateLimiter.

(** The calls a sequence holds for [key]. *)
Definition calls_of (key : string) (calls : list (string * Z))
    : list (string * Z) :=
  filter (λ c, c.1 = key) calls.

(** The answers given to the calls for [key], in order. *)
Fixpoint answers_of (key : string) (calls : list (string * Z))
    (answers : list bool) : list bool :=
  match calls, answers with
  | (k, _) :: calls, b :: answers =>
      if bool_decide (k = key)
      then b :: answers_of key calls answers
      else answers_of key calls answers
  | _, _ => []
  end.

(** The limiter with another reading of [_last_cleanup]. *)
Definition with_last_cleanup (self : t) (last : Z) : t :=
  mk (max_requests self) (window_seconds self) (_requests self) last.

(** No stored list is longer than the limit. *)
Definition lists_bounded (self : t) : Prop :=
  ∀ k v, _requests self !! k = Some v → Z.of_nat (length v) ≤ max_requests self.

End RateLimiterTraces.

(** *** [API.py]: [websocket_stream]

    The handler of one WebSocket.  [receive_text()] returns the next text of
    the client or raises ([WebSocketDisconnect] when the client closed, or
    another exception); the [script] gives what the successive calls do.
    The handler is still waiting in [receive_text()] when the script ends
    without a raise: [None]. *)

Module WebSocketStream.
Import ConnectionManager.

Section socket.

(** [websocket.accept()] *)
Variable accept : outcome unit.
(** [websocket.send_json({"type": "ack", "message": data})] *)
Variable send_ack : string → outcome unit.

(** The [while True] loop inside [try]; [acks] are the texts acknowledged
    so far.  [WebSocketDisconnect] and any other [Exception] both end in
    [ws_manager.disconnect(websocket)]. *)
Fixpoint stream_loop (self : t) (websocket : nat)
    (script : list (outcome string)) (acks : list string)
    : option (outcome unit * t * list string) :=
  match script with
  | [] => None
  | Returned data :: rest =>
      match send_ack data with
      | Returned _ => stream_loop self websocket rest (acks ++ [data])
      | Raised exc => Some (Returned (), disconnect self websocket, acks)
      | RaisedBase exc => Some (RaisedBase exc, self, acks)
      end
  | Raised exc :: _ => Some (Returned (), disconnect self websocket, acks)
  | RaisedBase exc :: _ => Some (RaisedBase exc, self, acks)
  end.

(** [websocket_stream]: [ws_manager.connect] ([accept], then append), then
    the loop. *)
Definition websocket_stream (self : t) (websocket : nat)
    (script : list (outcome string))
    : option (outcome unit * t * list string) :=
  match accept with
  | Returned _ => stream_loop (connect self websocket) websocket script []
  | Raised exc => Some (Raised exc, self, [])
  | RaisedBase exc => Some (RaisedBase exc, self, [])
  end.

End socket.

(** A socket that accepts and acknowledges everything. *)
Definition accept_ok : outcome unit := Returned ().
Definition ack_ok (_ : string) : outcome unit := Returned ().

End WebSocketStream.

(** *** [http_client.py]: who holds a cache dict *)

Module CacheOwner.
Import HttpClient.

(** Context [a] has the cache enabled with the dict at address [d], and no
    other context holds that dict. *)
Definition private_cache (w : World) (a d : nat) : Prop :=
  request_cache_get w a = Some d
  ∧ d ∈ dom (dicts w)
  ∧ ∀ c, c ≠ a → request_cache_get w c ≠ Some d.

(** Every dict a context holds exists. *)
Definition caches_exist (w : World) : Prop :=
  ∀ c d, request_cache_get w c = Some d → d ∈ dom (dicts w).

(** A request that has enabled its cache and fetched one URL. *)
Definition one_cached : World :=
  (get Flows.always_ok 1 "http://localhost:8080/balance" None None
     (init_request_cache 1 empty_world)).2.

End CacheOwner.

(** *** Strings of white space *)

Module PyStrSpace.


End PyStrSpace.

(** *** [tools/investment_strategy_tools.py]: the fetch helpers *)

Module StrategyFetch.
Import HttpClient.

(** A value [response.json()] returns.  A number is kept as its literal;
    a dict as its items, one per key. *)
Inductive json :=
| JNull
| JBool (b : bool)
| JNumber (literal : string)
| JString (s : string)
| JList (items : list json)
| JDict (items : list (string * json)).

(** [payload[k]] when [k in payload]. *)
Fixpoint dict_get (items : list (string * json)) (k : string) : option json :=
  match items with
  | [] => None
  | (k', v) :: items => if decide (k' = k) then Some v else dict_get items k
  end.

(** [_unwrap]: the [data] member of a dict that has one, else the payload. *)
Definition _unwrap (payload : json) : json :=
  match payload with
  | JDict items => default payload (dict_get items "data")
  | _ => payload
  end.

(** [data if isinstance(data, list) else []] *)
Definition list_or_empty (data : json) : list json :=
  match data with
  | JList items => items
  | _ => []
  end.

Section backend.
Variable session_send : list Request → Request → outcome Response.
(** [response.json()]; [None] when the body is no JSON ([ValueError]). *)
Variable response_json : Response → option json.
Variable API_BASE : string.

(** [_fetch_json(url, timeout=10)] called in context [c]. *)
Definition _fetch_json (c : nat) (u : string) (tmo : Z) (w : World)
    : outcome json * World :=
  match get session_send c u None (Some tmo) w with
  | (Returned response, w1) =>
      if ok response then                    (* [raise_for_status()] *)
        (match response_json response with
         | Some payload => Returned payload
         | None => Raised "JSONDecodeError"
         end, w1)
      else (Raised "HTTPError", w1)
  | (Raised e, w1) => (Raised e, w1)
  | (RaisedBase e, w1) => (RaisedBase e, w1)
  end.

(** [try: ... return data if isinstance(data, list) else []
     except Exception: return []], around a fetch of [u]; [unwrap] tells
    whether [_unwrap] is applied to the payload. *)
Definition fetch_list (unwrap : bool) (u : string) (c : nat) (w : World)
    : outcome (list json) * World :=
  match _fetch_json c u 10 w with
  | (Returned payload, w1) =>
      (Returned (list_or_empty (if unwrap then _unwrap payload else payload)),
       w1)
  | (Raised _, w1) => (Returned [], w1)
  | (RaisedBase e, w1) => (RaisedBase e, w1)
  end.

Definition _get_holdings : nat → World → outcome (list json) * World :=
  fetch_list true (String.append API_BASE "/holdings").

Definition _get_dashboard : nat → World → outcome (list json) * World :=
  fetch_list false (String.append API_BASE "/dashboard").

Definition _get_transactions : nat → World → outcome (list json) * World :=
  fetch_list false (String.append API_BASE "/transactions").

End backend.

(** A backend body read as a wrapped list of one share. *)
Definition one_share (_ : Response) : option json :=
  Some (JDict [("data", JList [JDict [("symbol", JString "AAPL")]])]).

End StrategyFetch.

(** *** [tools/profile_tools.py]: the list of symbols of the bulk tools *)

Module ProfileSymbols.

(** The character [","]. *)
Definition comma : Ascii.ascii := Eval compute in Ascii.ascii_of_nat 44.

(** [s.split(",")] *)
Fixpoint split_comma (s : string) : list string :=
  match s with
  | EmptyString => [EmptyString]
  | String a s' =>
      if Ascii.eqb a comma then EmptyString :: split_comma s'
      else match split_comma s' with
           | x :: xs => String a x :: xs
           | [] => [String a EmptyString]
           end
  end.

(** Python truthiness of a string. *)
Definition nonempty (s : string) : bool :=
  match s with EmptyString => false | _ => true end.

(** [[s.strip().upper() for s in symbols.split(",") if s.strip()]], the
    [sym_list] of [get_bulk_stock_prices] and [get_companies_by_symbols]. *)
Definition sym_list (symbols : string) : list string :=
  (λ s, PyStr.upper (PyStr.strip s))
    <$> List.filter (λ s, nonempty (PyStr.strip s)) (split_comma symbols).

(** The character [c] occurs in [s]. *)
Fixpoint has_char (c : Ascii.ascii) (s : string) : bool :=
  match s with
  | EmptyString => false
  | String a s => Ascii.eqb a c || has_char c s
  end.

(** A stripped string is empty or starts with a character that is no white
    space. *)
Definition starts_clean (s : string) : Prop :=
  match s with
  | EmptyString => True
  | String a _ => PyStr.isspace a = false
  end.

End ProfileSymbols.

(** ** Part II: properties *)

(** *** The rate limiter *)

Section rate_limiter.
Import RateLimiter.

Lemma filter_all (c : Z) (l : list Z) :
  Forall (λ y, c < y) l → filter (λ t, c < t) l = l.
Proof.
  induction 1 as [|y l Hy _ IH]; [done|].
  by rewrite filter_cons_True, IH.
Qed.

Lemma filter_none (c : Z) (l : list Z) :
  Forall (λ y, y ≤ c) l → filter (λ t, c < t) l = [].
Proof.
  induction 1 as [|y l Hy _ IH]; [done|].
  rewrite filter_cons_False; [done|lia].
Qed.

(** On a sorted list the comprehension [[t for t in v if t > c]] drops a
    prefix. *)
Lemma sorted_filter_split (c : Z) (l : list Z) :
  StronglySorted Z.le l →
  ∃ pre, l = pre ++ filter (λ t, c < t) l ∧ Forall (λ x, x ≤ c) pre.
Proof.
  induction 1 as [|x l Hs IH Hx].
  - by exists [].
  - destruct (decide (c < x)) as [Hc|Hc].
    + exists []. split; [|constructor].
      rewrite filter_all; [done|].
      constructor; [done|].
      eapply Forall_impl; [exact Hx|]. simpl. lia.
    + destruct IH as (pre & Hpre & Hall).
      exists (x :: pre). rewrite filter_cons_False by done.
      split; [simpl; by f_equal|]. constructor; [lia|done].
Qed.

Lemma sorted_last_bound (c : Z) (l : list Z) :
  StronglySorted Z.le l → stale c l = true → Forall (λ x, x ≤ c) l.
Proof.
  intros Hs. unfold stale.
  destruct (last l) as [y|] eqn:Hl.
  - intros Hy%bool_decide_eq_true.
    apply last_Some in Hl as [l' ->].
    apply Forall_app. split.
    + apply Forall_forall. intros x Hx.
      assert (x ≤ y); [|lia].
      eapply StronglySorted_app_1_elem_of; [exact Hs|done|set_solver].
    + constructor; [lia|done].
  - apply last_None in Hl as ->. done.
Qed.

Lemma cleanup_fields self now :
  max_requests (_maybe_cleanup self now) = max_requests self
  ∧ window_seconds (_maybe_cleanup self now) = window_seconds self.
Proof. unfold _maybe_cleanup. by case_bool_decide. Qed.

(** The sweep either leaves the list of [key] as it is or drops a stale
    one. *)
Lemma cleanup_requests_of self now key :
  requests_of (_maybe_cleanup self now) key = requests_of self key
  ∨ (requests_of (_maybe_cleanup self now) key = []
     ∧ stale (now - window_seconds self) (requests_of self key) = true).
Proof.
  unfold _maybe_cleanup, requests_of. case_bool_decide; [by left|]. simpl.
  destruct (_requests self !! key) as [v|] eqn:Hv; simpl.
  - destruct (stale (now - window_seconds self) v) eqn:Hst.
    + right. split; [|done].
      rewrite (proj2 (map_lookup_filter_None _ _ _)); [done|].
      right. intros x Hx. simpl. rewrite Hv in Hx. injection Hx as <-.
      by rewrite Hst.
    + left. by erewrite map_lookup_filter_Some_2.
  - left. rewrite (proj2 (map_lookup_filter_None _ _ _)); [done|]. by left.
Qed.

Lemma inv_mono key self hist t1 t2 :
  inv key self hist t1 → t1 ≤ t2 → inv key self hist t2.
Proof.
  intros [H1 H2 (pre & H3 & H4) H5] Ht. split; [|done| |done].
  - eapply Forall_impl; [exact H1|]. simpl. lia.
  - exists pre. split; [done|].
    eapply Forall_impl; [exact H4|]. simpl. lia.
Qed.

Lemma inv_cleanup key self hist now :
  inv key self hist now → inv key (_maybe_cleanup self now) hist now.
Proof.
  intros [H1 H2 (pre & H3 & H4) H5].
  destruct (cleanup_fields self now) as [Hm Hw].
  split; [done|done| |].
  - rewrite Hw.
    destruct (cleanup_requests_of self now key) as [->|[-> Hst]].
    + by exists pre.
    + exists hist. split; [by rewrite app_nil_r|].
      rewrite H3. apply Forall_app. split; [done|].
      apply sorted_last_bound; [|done].
      rewrite H3 in H2. by apply StronglySorted_app_1_r in H2.
  - by rewrite Hm, Hw.
Qed.

(** What [is_allowed] answers, in terms of the admission times. *)
Lemma kept_view key self hist now :
  inv key self hist now →
  filter (λ t, now - window_seconds self < t) (requests_of self key)
  = filter (λ t, now - window_seconds self < t) hist.
Proof.
  intros [_ _ (pre & -> & Hpre) _].
  by rewrite filter_app, (filter_none _ pre).
Qed.

Lemma is_allowed_answer key self hist now :
  inv key self hist now →
  (is_allowed self key now).1
  = bool_decide
      (Z.of_nat (length (filter (λ t, now - window_seconds self < t) hist))
       < max_requests self).
Proof.
  intros Hinv%inv_cleanup. pose proof (kept_view _ _ _ _ Hinv) as Hk.
  destruct (cleanup_fields self now) as [Hm Hw]. rewrite Hw in Hk.
  unfold is_allowed. rewrite Hm, Hw, Hk.
  case_bool_decide; simpl; symmetry;
    [apply bool_decide_eq_false|apply bool_decide_eq_true]; lia.
Qed.

Lemma length_filter_impl (P Q : Z → Prop)
    `{!∀ x, Decision (P x)} `{!∀ x, Decision (Q x)} (l : list Z) :
  Forall (λ x, P x → Q x) l →
  (length (filter P l) ≤ length (filter Q l))%nat.
Proof.
  induction 1 as [|x l Hx _ IH]; [done|].
  rewrite !filter_cons.
  destruct (decide (P x)), (decide (Q x)); simpl; try lia. tauto.
Qed.

(** One call keeps the invariant of [key], whether it is a call for [key]
    or for another caller. *)
Lemma is_allowed_inv key self hist k now :
  inv key self hist now →
  inv key (is_allowed self k now).2
    (hist ++ (if bool_decide (k = key) && (is_allowed self k now).1
              then [now] else []))
    now.
Proof.
  intros Hinv%inv_cleanup. pose proof (kept_view _ _ _ _ Hinv) as Hk.
  destruct (cleanup_fields self now) as [Hm Hw].
  unfold is_allowed.
  set (self' := _maybe_cleanup self now) in *.
  set (kept := filter (λ t, now - window_seconds self' < t)
                 (requests_of self' k)).
  destruct Hinv as [H1 H2 (pre & H3 & H4) H5].
  destruct (decide (k = key)) as [->|Hne].
  - rewrite (bool_decide_eq_true_2 (key = key)) by done. simpl andb.
    assert (StronglySorted Z.le (requests_of self' key)) as Hs.
    { rewrite H3 in H2. by apply StronglySorted_app_1_r in H2. }
    destruct (sorted_filter_split (now - window_seconds self') _ Hs)
      as (pre2 & Hsplit & Hpre2).
    fold kept in Hsplit, Hk.
    assert (hist = (pre ++ pre2) ++ kept) as Hhist.
    { by rewrite <- app_assoc, <- Hsplit. }
    assert (Forall (λ x, x ≤ now - window_seconds self') (pre ++ pre2))
      as Hdrop by (by apply Forall_app).
    case_bool_decide as Hfull; simpl.
    + rewrite app_nil_r. split; simpl; [done|done| |done].
      exists (pre ++ pre2). unfold requests_of; simpl.
      by rewrite lookup_insert_eq.
    + split; simpl.
      * apply Forall_app. split; [done|]. constructor; [lia|done].
      * apply StronglySorted_app_2; [|done|repeat constructor].
        intros x1 x2 Hx1 ->%list_elem_of_singleton.
        by eapply (proj1 (Forall_forall _ _) H1).
      * exists (pre ++ pre2). unfold requests_of; simpl.
        rewrite lookup_insert_eq. simpl. split; [|done].
        by rewrite Hhist at 1; rewrite <- !app_assoc.
      * intros T. unfold in_window. rewrite filter_app, length_app.
        rewrite filter_cons, filter_nil.
        destruct (decide (T - window_seconds self' < now ∧ now ≤ T))
          as [[Hlo Hhi]|Hout]; simpl.
        -- assert (length (filter (λ t, (T - window_seconds self' < t
                                         ∧ t ≤ T)%Z) hist)
                   ≤ length kept)%nat; [|lia].
           rewrite Hk. apply length_filter_impl.
           apply Forall_forall. intros x _ ?. lia.
        -- specialize (H5 T). unfold in_window in H5. lia.
  - rewrite (bool_decide_eq_false_2 (k = key)) by done. simpl andb.
    rewrite app_nil_r.
    assert (∀ v, requests_of
              (mk (max_requests self') (window_seconds self')
                  (<[k := v]> (_requests self')) (_last_cleanup self')) key
            = requests_of self' key) as Hother.
    { intros v. unfold requests_of; simpl. by rewrite lookup_insert_ne. }
    case_bool_decide; simpl; (split; simpl; [done|done| |done]);
      exists pre; by rewrite Hother.
Qed.

Lemma run_inv key calls : ∀ self hist t0 tend,
  inv key self hist t0 → clock_ok t0 calls →
  Forall (λ c, c.2 ≤ tend) calls → t0 ≤ tend →
  inv key (run self calls).2
    (hist ++ admitted key calls (run self calls).1) tend.
Proof.
  induction calls as [|[k now] rest IH]; intros self hist t0 tend Hinv Hck Hend Ht.
  - simpl. rewrite app_nil_r. by eapply inv_mono.
  - destruct Hck as [Hnow Hck].
    apply Forall_cons in Hend as [Hle Hend]. simpl in Hle.
    pose proof (is_allowed_inv key self hist k now
                  (inv_mono _ _ _ _ _ Hinv Hnow)) as Hstep.
    specialize (IH _ _ _ tend Hstep Hck Hend Hle).
    simpl. destruct (is_allowed self k now) as [b self1]. simpl in *.
    destruct (run self1 rest) as [bs self2]. simpl in *.
    destruct (bool_decide (k = key) && b); simpl;
      by rewrite <- app_assoc in IH.
Qed.

Lemma run_fields calls : ∀ self,
  max_requests (run self calls).2 = max_requests self
  ∧ window_seconds (run self calls).2 = window_seconds self.
Proof.
  induction calls as [|[k now] rest IH]; intros self; [done|].
  simpl. specialize (IH (is_allowed self k now).2).
  destruct (is_allowed self k now) as [b self1] eqn:E. simpl in IH.
  destruct (run self1 rest) as [bs self2]. simpl in *.
  assert (self1 = (is_allowed self k now).2) as -> by (by rewrite E).
  destruct IH as [-> ->]. unfold is_allowed.
  destruct (cleanup_fields self now) as [Hm Hw].
  by case_bool_decide.
Qed.

Lemma inv_init key max w t0 : 0 ≤ max → inv key (init max w) [] t0.
Proof.
  intros Hmax. split; simpl; [constructor|constructor| |done].
  exists []. split; [|constructor]. unfold requests_of, init. simpl.
  by rewrite lookup_empty.
Qed.

End rate_limiter.

Section rate_limiter_claims.
Import RateLimiter.

Lemma clock_ok_weaken calls t0 t1 :
  t1 ≤ t0 → clock_ok t0 calls → clock_ok t1 calls.
Proof. destruct calls as [|[k now] rest]; simpl; [done|]. intros ? [? ?]. split; [lia|done]. Qed.

Lemma foldr_max_bound (t0 : Z) (l : list Z) :
  t0 ≤ foldr Z.max t0 l ∧ Forall (λ x, x ≤ foldr Z.max t0 l) l.
Proof.
  induction l as [|x l [IH1 IH2]]; [by split|].
  change (foldr Z.max t0 (x :: l)) with (Z.max x (foldr Z.max t0 l)).
  split; [lia|]. constructor; [lia|].
  eapply Forall_impl; [exact IH2|]. simpl. lia.
Qed.

(** Three calls of one caller in one window under a limit of two, and a
    fourth call once the window has slid past the last admission. *)
Example run_limit_two :
  (run (init 2 60) [("10.0.0.1", 0); ("10.0.0.1", 10); ("10.0.0.1", 20);
                    ("10.0.0.1", 70)]).1
  = [true; true; false; true].
Proof. vm_compute. reflexivity. Qed.

(** C2. For every caller key and every sequence of [is_allowed] calls made
    at clock readings that never run backwards, under a limit
    [max_requests >= 0]: (1) no trailing window of [window_seconds] holds more
    than [max_requests] admission times of the key; (2) a further call of the
    key at a time whose trailing window already holds [max_requests]
    admissions is answered [False]; (3) a further call made once
    [window_seconds] have elapsed past every admission of the key (so past
    the last one) is answered [True] again, when the limit is positive. *)
Theorem is_allowed_sliding_window
    (max w : Z) (key : string) (calls : list (string * Z)) (t0 : Z) :
  0 ≤ max → clock_ok t0 calls →
  let answers := (run (init max w) calls).1 in
  let self := (run (init max w) calls).2 in
  let times := admitted key calls answers in
  (∀ T, Z.of_nat (length (in_window w T times)) ≤ max)
  ∧ (∀ now, Forall (λ c, c.2 ≤ now) calls →
       max ≤ Z.of_nat (length (in_window w now times)) →
       (is_allowed self key now).1 = false)
  ∧ (∀ now, Forall (λ c, c.2 ≤ now) calls →
       0 < max → Forall (λ t, t + w ≤ now) times →
       (is_allowed self key now).1 = true).
Proof.
  intros Hmax Hck answers self times.
  assert (∀ now, Forall (λ c, c.2 ≤ now) calls → inv key self times now)
    as Hinv.
  { intros now Hle.
    pose proof (run_inv key calls (init max w) [] (Z.min t0 now) now) as H.
    simpl in H. apply H; [by apply inv_init| |done|lia].
    eapply clock_ok_weaken; [|exact Hck]. lia. }
  destruct (run_fields calls (init max w)) as [Hm Hw]. simpl in Hm, Hw.
  fold self in Hm, Hw.
  split; [|split].
  - intros T.
    assert (inv key self (admitted key calls answers)
              (Z.max t0 (foldr Z.max t0 calls.*2))) as H.
    { apply (run_inv key calls (init max w) [] t0);
        [by apply inv_init|done| |lia].
      apply Forall_forall. intros [k now] Hin. simpl.
      pose proof (foldr_max_bound t0 calls.*2) as [_ Hall].
      assert (now ∈ calls.*2) as Hnow.
      { apply list_elem_of_fmap. by exists (k, now). }
      pose proof (proj1 (Forall_forall _ _) Hall now Hnow). simpl in *. lia. }
    destruct H as [_ _ _ H]. specialize (H T). fold self in H.
    by rewrite Hm, Hw in H.
  - intros now Hle Hfull.
    rewrite (is_allowed_answer key self times now) by auto.
    apply bool_decide_eq_false. rewrite Hm, Hw.
    assert (length (in_window w now times)
            ≤ length (filter (λ t, (now - w < t)%Z) times))%nat; [|lia].
    apply length_filter_impl, Forall_forall. intros x _ ?. lia.
  - intros now Hle Hpos Hgone.
    rewrite (is_allowed_answer key self times now) by auto.
    apply bool_decide_eq_true. rewrite Hm, Hw.
    rewrite filter_none; [simpl; lia|].
    eapply Forall_impl; [exact Hgone|]. simpl. lia.
Qed.

Lemma is_allowed_sliding_window_witness :
  let calls := [("10.0.0.1", 0); ("10.0.0.1", 10); ("10.0.0.1", 20)] in
  let answers := (run (init 2 60) calls).1 in
  let self := (run (init 2 60) calls).2 in
  let times := admitted "10.0.0.1" calls answers in
  (∀ T, Z.of_nat (length (in_window 60 T times)) ≤ 2)
  ∧ (∀ now, Forall (λ c, c.2 ≤ now) calls →
       2 ≤ Z.of_nat (length (in_window 60 now times)) →
       (is_allowed self "10.0.0.1" now).1 = false)
  ∧ (∀ now, Forall (λ c, c.2 ≤ now) calls →
       0 < 2 → Forall (λ t, t + 60 ≤ now) times →
       (is_allowed self "10.0.0.1" now).1 = true).
Proof.
  apply (is_allowed_sliding_window 2 60 "10.0.0.1"
           [("10.0.0.1", 0); ("10.0.0.1", 10); ("10.0.0.1", 20)] 0).
  - lia.
  - simpl. lia.
Defined.

End rate_limiter_claims.

(** *** The health check *)

Section health.
Import Health.

Lemma health_check_spec (r s b m : gmap string string) :
  health_check r s b m
  = if status_ok r && status_ok s && status_ok m then "healthy" else "degraded".
Proof.
  unfold health_check, checks, check_of. simpl.
  rewrite lookup_insert_eq.
  rewrite lookup_insert_ne, lookup_insert_eq by done.
  rewrite !lookup_insert_ne, lookup_singleton_eq by done. simpl.
  by rewrite andb_true_r, andb_assoc.
Qed.

(** C10, as stated, fails: with the broker API reporting "unhealthy" and the
    three other dependencies healthy, the overall status is "healthy". *)
Lemma health_check_ignores_broker :
  health_check healthy_dict healthy_dict unhealthy_dict healthy_dict = "healthy"
  ∧ status_ok unhealthy_dict = false.
Proof. split; vm_compute; reflexivity. Qed.

(** C10, amended. The overall status is "healthy" exactly when the pub/sub
    channel ([redis]), the memory store ([supabase]) and the agent-serving
    processes ([mcp_servers]) each report "healthy" or "unavailable", and
    "degraded" otherwise; the status of the broker API is reported in
    [checks] but does not enter the overall status. *)
Theorem health_check_critical_only (r s b m : gmap string string) :
  (health_check r s b m = "healthy"
   ↔ status_ok r = true ∧ status_ok s = true ∧ status_ok m = true)
  ∧ (health_check r s b m ≠ "healthy" → health_check r s b m = "degraded")
  ∧ (∀ b', health_check r s b' m = health_check r s b m).
Proof.
  split; [|split].
  - rewrite health_check_spec.
    destruct (status_ok r), (status_ok s), (status_ok m); simpl;
      split; try done; intros (? & ? & ?); done.
  - rewrite health_check_spec.
    by destruct (status_ok r && status_ok s && status_ok m).
  - intros b'. by rewrite !health_check_spec.
Qed.

End health.

(** *** The query validator *)

Section sanitize.
Import MCPQueryRequest PyStr.

Lemma upper_ascii_not_lower (a : Ascii.ascii) :
  ((97 <=? Ascii.nat_of_ascii (upper_ascii a))
   && (Ascii.nat_of_ascii (upper_ascii a) <=? 122))%nat = false.
Proof. destruct a as [[] [] [] [] [] [] [] []]; vm_compute; reflexivity. Qed.

(** An upper-cased string has no prefix with a lower-case letter in it. *)
Lemma prefix_upper_lower (p : string) : ∀ v,
  has_lower p = true → String.prefix p (upper v) = false.
Proof.
  induction p as [|a p IH]; intros v Hp; [done|].
  destruct v as [|b v]; [done|]. simpl.
  destruct (Ascii.ascii_dec a (upper_ascii b)) as [->|]; [|done].
  cbn [has_lower] in Hp. rewrite upper_ascii_not_lower in Hp. by apply IH.
Qed.

Lemma contains_upper_lower (p : string) (v : string) :
  has_lower p = true → contains p (upper v) = false.
Proof.
  intros Hp. induction v as [|b v IH].
  - simpl. by destruct p.
  - change (upper (String b v)) with (String (upper_ascii b) (upper v)).
    cbn [contains]. rewrite IH, orb_false_r.
    by apply (prefix_upper_lower p (String b v)).
Qed.

(** C8. What [sanitize_query] does with the denylist: a query in which an
    upper-case SQL marker occurs after upper-casing is rejected, and a rejected
    request to [/mcp/query] leaves the interpreter state as it was (nothing
    goes out); the two script markers are written in lower case and compared
    with the upper-cased query, so they never match, and the queries
    ["<script>alert(1)</script>"] and ["javascript:alert(1)"] pass. *)
Theorem sanitize_query_denylist :
  (∀ v pattern, pattern ∈ ["DROP"; "DELETE"; "TRUNCATE"] →
     contains pattern (upper v) = true →
     sanitize_query v = Raised "Query contains potentially dangerous content")
  ∧ (∀ orchestrate c p token w e,
       validate_query (Endpoints.query p) = Raised e →
       (Endpoints.mcp_query_request orchestrate c p token w).2 = w)
  ∧ validate_query "please DROP TABLE users"
    = Raised "Query contains potentially dangerous content"
  ∧ (∀ v, contains "<script>" (upper v) = false
          ∧ contains "javascript:" (upper v) = false)
  ∧ validate_query "<script>alert(1)</script>"
    = Returned "<script>alert(1)</script>"
  ∧ validate_query "javascript:alert(1)" = Returned "javascript:alert(1)".
Proof.
  split; [|split; [|split; [|split; [|split]]]].
  - intros v pattern Hin Hc. unfold sanitize_query, dangerous_patterns.
    set_unfold in Hin.
    destruct Hin as [->|[->|[->|[]]]]; simpl; rewrite Hc; simpl;
      rewrite ?orb_true_r; done.
  - intros orchestrate c p token w e Hv. unfold Endpoints.mcp_query_request.
    by rewrite Hv.
  - vm_compute. reflexivity.
  - intros v. split; by apply contains_upper_lower.
  - vm_compute. reflexivity.
  - vm_compute. reflexivity.
Qed.

End sanitize.

(** *** The request context *)

Section request_context.
Import HttpClient Flows.
Variable session_send : list Request → Request → outcome Response.

Lemma context_of_set_context (c c' : nat) (x : Context) (w : World) :
  context_of (set_context c x w) c'
  = if decide (c = c') then x else context_of w c'.
Proof.
  unfold context_of, set_context. simpl. rewrite lookup_insert.
  by destruct (decide (c = c')).
Qed.

Lemma session_call_contexts (r : Request) (w : World) :
  contexts (session_call session_send r w).2 = contexts w.
Proof. done. Qed.

(** [get] touches the dicts and the log of calls, never a context. *)
Lemma get_contexts c u hdrs tmo w :
  contexts (get session_send c u hdrs tmo w).2 = contexts w.
Proof.
  unfold get. destruct (cached_response _ _ _); [done|]. simpl.
  destruct (session_send _ _) as [response| |]; [|done|done].
  destruct (request_cache_get w c); [|done].
  by destruct (ok response).
Qed.

Lemma context_of_contexts (w w' : World) (c : nat) :
  contexts w' = contexts w → context_of w' c = context_of w c.
Proof. unfold context_of. by intros ->. Qed.

(** A step made in another context, and not a copy into [b], leaves the
    context [b] as it is. *)
Lemma step_other (w : World) (e : event) (b : nat) :
  ¬ runs_in b e → ¬ copies_into b e →
  context_of (step session_send w e) b = context_of w b.
Proof.
  destruct e as [c a]. unfold runs_in, copies_into. simpl. intros Hc Hcopy.
  destruct a as [token| | |child|u]; simpl.
  - unfold set_request_token. rewrite context_of_set_context.
    by rewrite decide_False.
  - unfold context_of, init_request_cache. simpl.
    by rewrite lookup_insert_ne.
  - unfold clear_request_cache. rewrite context_of_set_context.
    by rewrite decide_False.
  - unfold copy_context. rewrite context_of_set_context.
    rewrite decide_False; [done|]. intros ->. apply Hcopy. by exists c.
  - apply context_of_contexts, get_contexts.
Qed.

(** A step of [b] itself changes its token only by [set_request_token]. *)
Lemma step_own_token (w : World) (a : action) (b : nat) :
  a ≠ CopyContext b →
  request_token_get (step session_send w (b, a)) b
  = match a with SetToken token => token | _ => request_token_get w b end.
Proof.
  intros Hcopy. unfold request_token_get.
  destruct a as [token| | |child|u]; simpl.
  - unfold set_request_token. rewrite context_of_set_context.
    by rewrite decide_True.
  - unfold context_of at 1, init_request_cache. simpl.
    by rewrite lookup_insert_eq.
  - unfold clear_request_cache. rewrite context_of_set_context.
    by rewrite decide_True.
  - unfold copy_context. rewrite context_of_set_context.
    rewrite decide_False; [done|congruence].
  - f_equal. apply context_of_contexts, get_contexts.
Qed.

(** What request [b] resolves after any run is what its own steps
    attached. *)
Lemma run_token (trace : list event) : ∀ w b,
  Forall (λ e, ¬ copies_into b e) trace →
  request_token_get (run session_send w trace) b
  = attached b trace (request_token_get w b).
Proof.
  induction trace as [|[c a] trace IH]; intros w b Hcopy; [done|].
  apply Forall_cons in Hcopy as [Hc Hcopy].
  unfold run in *. cbn [foldl]. rewrite IH by done.
  destruct (decide (c = b)) as [->|Hne].
  - rewrite step_own_token.
    + destruct a; simpl; rewrite ?decide_True; done.
    + intros ->. apply Hc. by exists b.
  - unfold request_token_get at 1. rewrite step_other by done.
    destruct a; simpl; rewrite ?decide_False; done.
Qed.

Lemma filter_runs_in_nil (b : nat) (trace : list event) :
  Forall (λ e, ¬ runs_in b e) trace → filter (runs_in b) trace = [].
Proof.
  induction 1 as [|e trace He _ IH]; [done|].
  by rewrite filter_cons_False.
Qed.

(** [attached] looks at the steps of [b] only. *)
Lemma attached_own (b : nat) (trace : list event) : ∀ before,
  attached b trace before = attached b (filter (runs_in b) trace) before.
Proof.
  induction trace as [|[c a] trace IH]; intros before; [done|].
  rewrite filter_cons. unfold runs_in at 1. simpl.
  destruct (decide (c = b)) as [->|Hne].
  - destruct a; simpl; rewrite ?decide_True; done.
  - destruct a; simpl; rewrite ?decide_False; done.
Qed.

(** C1. Over every interleaving of the steps of concurrent requests: what a
    request [b] resolves as its credential is the token its own last
    [set_request_token] attached (or what its context held before, [None]
    for a new request), so two runs that differ only in the steps of other
    requests give [b] the same credential and the same authorization
    headers; and a context copied from request [a] for a worker resolves the
    credential of [a], whatever other contexts do afterwards. *)
Theorem credential_isolated :
  (∀ w trace b,
     Forall (λ e, ¬ copies_into b e) trace →
     request_token_get (run session_send w trace) b
     = attached b (filter (runs_in b) trace) (request_token_get w b))
  ∧ (∀ w trace1 trace2 b,
       Forall (λ e, ¬ copies_into b e) trace1 →
       Forall (λ e, ¬ copies_into b e) trace2 →
       filter (runs_in b) trace1 = filter (runs_in b) trace2 →
       request_token_get (run session_send w trace1) b
       = request_token_get (run session_send w trace2) b
       ∧ get_auth_headers (run session_send w trace1) b None
         = get_auth_headers (run session_send w trace2) b None)
  ∧ (∀ trace b,
       Forall (λ e, ¬ copies_into b e) trace →
       Forall (λ e, ¬ runs_in b e) trace →
       request_token_get (run session_send empty_world trace) b = None)
  ∧ (∀ w a child trace,
       Forall (λ e, ¬ copies_into child e ∧ ¬ runs_in child e) trace →
       request_token_get
         (run session_send (copy_context a child w) trace) child
       = request_token_get w a).
Proof.
  assert (∀ w trace1 trace2 b,
            Forall (λ e, ¬ copies_into b e) trace1 →
            Forall (λ e, ¬ copies_into b e) trace2 →
            filter (runs_in b) trace1 = filter (runs_in b) trace2 →
            request_token_get (run session_send w trace1) b
            = request_token_get (run session_send w trace2) b) as Hsame.
  { intros w trace1 trace2 b H1 H2 Heq.
    rewrite !run_token by done.
    by rewrite (attached_own b trace1), (attached_own b trace2), Heq. }
  split; [|split; [|split]].
  - intros w trace b Hcopy. by rewrite run_token, attached_own.
  - intros w trace1 trace2 b H1 H2 Heq. split; [by apply Hsame|].
    unfold get_auth_headers. simpl. by rewrite (Hsame w trace1 trace2 b).
  - intros trace b Hcopy Hrun. rewrite run_token, attached_own by done.
    by rewrite filter_runs_in_nil.
  - intros w a child trace Hall.
    rewrite run_token, attached_own.
    + rewrite filter_runs_in_nil.
      * simpl. unfold request_token_get, copy_context.
        rewrite context_of_set_context. by rewrite decide_True.
      * eapply Forall_impl; [exact Hall|]. simpl. tauto.
    + eapply Forall_impl; [exact Hall|]. simpl. tauto.
Qed.

End request_context.

Section request_context_examples.
Import HttpClient Flows.

(** Requests 1 and 2 interleaved: each attaches its own token, request 1
    copies its context for a worker (context 3) and ends; request 2 still
    resolves its own token, the worker the token of request 1, and request 1
    nothing. *)
Example two_requests_interleaved :
  let w := run always_ok empty_world
             [(1, SetToken (Some "jwt-A")); (2, SetToken (Some "jwt-B"));
              (1, InitCache); (1, CopyContext 3); (2, InitCache);
              (1, ClearCache); (1, SetToken None)]%nat in
  request_token_get w 2 = Some "jwt-B"
  ∧ request_token_get w 3 = Some "jwt-A"
  ∧ request_token_get w 1 = None
  ∧ get_auth_headers w 2 None !! "Authorization" = Some "Bearer jwt-B".
Proof. vm_compute. repeat split; reflexivity. Qed.

End request_context_examples.

(** *** The GET cache *)

Section get_cache.
Import HttpClient Flows.
Variable session_send : list Request → Request → outcome Response.

(** A hit: the cached response comes back and the state is untouched. *)
Lemma get_hit c u hdrs tmo w m r :
  cache_active w c m → m !! u = Some r →
  get session_send c u hdrs tmo w = (Returned r, w).
Proof.
  intros (d & Hc & Hd) Hr. unfold get, cached_response.
  by rewrite Hc, Hd, Hr.
Qed.

(** A miss: exactly one call goes out. *)
Lemma get_miss_sent c u hdrs tmo w :
  cached_response w (request_cache_get w c) u = None →
  sent (get session_send c u hdrs tmo w).2
  = sent w ++ [get_request w c u hdrs tmo].
Proof.
  intros Hmiss. unfold get. rewrite Hmiss. simpl.
  destruct (session_send _ _) as [response| |]; [|done|done].
  destruct (request_cache_get w c); [|done].
  by destruct (ok response).
Qed.

(** A miss with the cache enabled and a successful answer: the response is
    stored under the URL. *)
Lemma get_miss_stores c u hdrs tmo w m r :
  cache_active w c m → m !! u = None →
  session_send (sent w) (get_request w c u hdrs tmo) = Returned r →
  ok r = true →
  (get session_send c u hdrs tmo w).1 = Returned r
  ∧ cache_active (get session_send c u hdrs tmo w).2 c (<[u := r]> m).
Proof.
  intros (d & Hc & Hd) Hm Hsend Hok. unfold get, cached_response.
  rewrite Hc, Hd, Hm. simpl. fold (get_request w c u hdrs tmo).
  rewrite Hsend, Hok. simpl. split; [done|].
  exists d. split; [done|]. simpl.
  rewrite lookup_alter, decide_True by done. by rewrite Hd.
Qed.

(** With the cache disabled a call goes out and nothing is stored. *)
Lemma get_disabled c u hdrs tmo w :
  request_cache_get w c = None →
  sent (get session_send c u hdrs tmo w).2
  = sent w ++ [get_request w c u hdrs tmo]
  ∧ request_cache_get (get session_send c u hdrs tmo w).2 c = None.
Proof.
  intros Hc. split.
  - apply get_miss_sent. by rewrite Hc.
  - unfold request_cache_get in *.
    by rewrite (context_of_contexts w _ c
                  (get_contexts session_send c u hdrs tmo w)).
Qed.

Lemma get_cache_ok c u hdrs tmo w :
  cache_ok w → cache_ok (get session_send c u hdrs tmo w).2.
Proof.
  intros Hok. unfold get.
  destruct (cached_response _ _ _); [done|]. simpl.
  destruct (session_send _ _) as [response| |]; [|done|done].
  destruct (request_cache_get w c) as [d|]; [|done].
  destruct (ok response) eqn:Hresp; [|done].
  intros d' m u' r. simpl. rewrite lookup_alter.
  destruct (decide (d = d')) as [<-|]; [|apply Hok].
  destruct (dicts w !! d) as [m0|] eqn:Hd; simpl; [|done].
  intros [= <-]. rewrite lookup_insert.
  destruct (decide (u = u')) as [<-|]; [congruence|by eapply Hok].
Qed.

Lemma step_cache_ok (w : World) (e : event) :
  cache_ok w → cache_ok (step session_send w e).
Proof.
  intros Hok. destruct e as [c [token| | |child|u]]; simpl; try done.
  - intros d m u r. unfold init_request_cache. simpl. rewrite lookup_insert.
    destruct (decide _); [by intros [= <-]|apply Hok].
  - by apply get_cache_ok.
Qed.

Lemma run_cache_ok (trace : list event) : ∀ w,
  cache_ok w → cache_ok (run session_send w trace).
Proof.
  induction trace as [|e trace IH]; intros w Hok; [done|].
  apply IH. by apply step_cache_ok.
Qed.

(** C3, amended. With the request-scoped cache active and holding a
    response for the URL, [get] returns that response and leaves the state,
    and so the log of outbound calls, as it was; with the cache active and
    not holding the URL, two [get] calls for it issue exactly one outbound
    call when the first call is answered with a successful response, and
    both return that response; with the cache disabled, two [get] calls
    issue two outbound calls; and over every run from the initial state no
    cache dict ever holds an unsuccessful response. *)
Theorem get_cache_memoizes :
  (∀ c u hdrs tmo w m r,
     cache_active w c m → m !! u = Some r →
     get session_send c u hdrs tmo w = (Returned r, w))
  ∧ (∀ c u hdrs tmo hdrs' tmo' w m r,
       cache_active w c m → m !! u = None →
       session_send (sent w) (get_request w c u hdrs tmo) = Returned r →
       ok r = true →
       let '(r1, w1) := get session_send c u hdrs tmo w in
       let '(r2, w2) := get session_send c u hdrs' tmo' w1 in
       r1 = Returned r ∧ r2 = Returned r
       ∧ sent w2 = sent w ++ [get_request w c u hdrs tmo])
  ∧ (∀ c u hdrs tmo hdrs' tmo' w,
       request_cache_get w c = None →
       let '(r1, w1) := get session_send c u hdrs tmo w in
       let '(r2, w2) := get session_send c u hdrs' tmo' w1 in
       sent w2 = sent w ++ [get_request w c u hdrs tmo;
                            get_request w1 c u hdrs' tmo'])
  ∧ (∀ trace, cache_ok (run session_send empty_world trace)).
Proof.
  split; [|split; [|split]].
  - intros. by eapply get_hit.
  - intros c u hdrs tmo hdrs' tmo' w m r Hact Hm Hsend Hok.
    destruct (get_miss_stores c u hdrs tmo w m r Hact Hm Hsend Hok)
      as [H1 Hact1].
    pose proof (get_miss_sent c u hdrs tmo w) as Hsent.
    destruct (get session_send c u hdrs tmo w) as [r1 w1]. simpl in *.
    rewrite (get_hit c u hdrs' tmo' w1 _ r Hact1)
      by apply lookup_insert_eq.
    split; [done|]. split; [done|]. apply Hsent.
    destruct Hact as (d & -> & Hd). simpl. by rewrite Hd.
  - intros c u hdrs tmo hdrs' tmo' w Hc.
    destruct (get_disabled c u hdrs tmo w Hc) as [Hs1 Hc1].
    destruct (get session_send c u hdrs tmo w) as [r1 w1]. simpl in *.
    destruct (get_disabled c u hdrs' tmo' w1 Hc1) as [Hs2 _].
    destruct (get session_send c u hdrs' tmo' w1) as [r2 w2]. simpl in *.
    by rewrite Hs2, Hs1, <- app_assoc.
  - intros trace. apply run_cache_ok. intros d m u r. simpl.
    by rewrite lookup_empty.
Qed.

End get_cache.

Section get_cache_examples.
Import HttpClient Flows.

(** C3, as stated, fails: in one request with the cache active, two [get]
    calls for one URL answered 500 issue two outbound calls, since the
    unsuccessful response is not stored. *)
Lemma two_gets_two_calls_on_failure :
  let w := init_request_cache 1 (set_request_token 1 (Some "jwt") empty_world) in
  let '(r1, w1) := get always_500 1 "http://localhost:8080/balance" None None w in
  let '(r2, w2) := get always_500 1 "http://localhost:8080/balance" None None w1 in
  (∃ d, request_cache_get w 1 = Some d ∧ dicts w !! d = Some ∅)
  ∧ r1 = Returned (mkResponse 500 "Internal Server Error")
  ∧ length (sent w2) = 2%nat.
Proof.
  vm_compute. split; [|split; reflexivity].
  eexists. split; reflexivity.
Qed.

(** The same two calls answered 200 issue one outbound call; with the cache
    disabled they issue two. *)
Example two_gets_one_call_on_success :
  let w := init_request_cache 1 (set_request_token 1 (Some "jwt") empty_world) in
  let '(r1, w1) := get always_ok 1 "http://localhost:8080/balance" None None w in
  let '(r2, w2) := get always_ok 1 "http://localhost:8080/balance" None None w1 in
  r1 = r2 ∧ length (sent w2) = 1%nat
  ∧ length (sent (get always_ok 1 "http://localhost:8080/balance" None None
                    (get always_ok 1 "http://localhost:8080/balance" None None
                       empty_world).2).2) = 2%nat.
Proof. vm_compute. repeat split; reflexivity. Qed.

End get_cache_examples.

(** *** The endpoints *)

Section endpoints.
Import HttpClient Endpoints.

(** The [finally] block leaves the context of the handler with both
    variables at [None]. *)
Lemma finally_resets (c : nat) (w : World) :
  context_of (set_request_token c None (clear_request_cache c w)) c
  = default_context.
Proof.
  unfold set_request_token, clear_request_cache.
  rewrite !context_of_set_context. by rewrite !decide_True.
Qed.

Lemma try_finally_state {A} (body : M A) (cleanup : World → World) (w : World) :
  (try_finally body cleanup w).2 = cleanup (body w).2.
Proof. unfold try_finally. by destruct (body w). Qed.

(** C9. Whatever the agent or the orchestrator does in the handler's context
    (return, raise an [Exception], raise a [BaseException]) and whatever
    state it leaves behind, when an agent endpoint or [/mcp/query] ends the
    GET cache of that context is disabled and its token is [None]. *)
Theorem endpoint_cleanup_on_every_exit
    (run_agent : nat → string → Z → M string) (detail : string)
    (orchestrate : nat → Z → string → option string → M reply)
    (c : nat) (p : payload) (token : string) (w : World) :
  let w1 := (execute_agent_endpoint run_agent detail c p token w).2 in
  let w2 := (mcp_query_endpoint orchestrate c p token w).2 in
  (request_cache_get w1 c = None ∧ request_token_get w1 c = None)
  ∧ (request_cache_get w2 c = None ∧ request_token_get w2 c = None).
Proof.
  intros w1 w2. subst w1 w2.
  unfold execute_agent_endpoint, mcp_query_endpoint.
  rewrite !try_finally_state.
  unfold request_cache_get, request_token_get.
  by rewrite !finally_resets.
Qed.

(** The three exits of an agent endpoint, on an agent that attaches nothing
    itself: the reply or the error goes to the caller and the context is
    clean in each case. *)
Example execute_agent_exits (res : outcome string) :
  let agent : nat → string → Z → M string := λ _ _ _ w, (res, w) in
  let '(r, w') :=
    execute_agent_endpoint agent "Failed to execute agent" 7
      (mkPayload "buy AAPL" 1 None) "jwt" empty_world in
  context_of w' 7 = default_context
  ∧ r = match res with
        | Returned x => Returned (Data x 1)
        | Raised _ => Raised "HTTPException 500: Failed to execute agent"
        | RaisedBase e => RaisedBase e
        end.
Proof. by destruct res. Qed.

End endpoints.

(** *** The retry strategy *)

Section retry.
Import Retry.

Lemma increment_total (r r' : t) :
  increment r = Some r' → total r' = total r - 1 ∧ 0 ≤ total r'.
Proof.
  unfold increment, is_exhausted. simpl. case_bool_decide; [done|].
  intros [= <-]. simpl. lia.
Qed.

(** A call sends at most [total + 1] requests. *)
Lemma urlopen_attempts_bound (method : string) (answers : list Z) :
  ∀ r x, 0 ≤ total r → urlopen r method answers = Some x →
    (attempts x ≤ Z.to_nat (total r) + 1)%nat.
Proof.
  induction answers as [|status rest IH]; intros r x Hr; [done|]. simpl.
  destruct (is_retry r method status); [|intros [= <-]; simpl; lia].
  destruct (increment r) as [r'|] eqn:Hinc; [|intros [= <-]; simpl; lia].
  apply increment_total in Hinc as [Ht Hpos].
  destruct (urlopen r' method rest) as [y|] eqn:Hy; [|done].
  intros [= <-]. simpl. specialize (IH r' y Hpos Hy). lia.
Qed.

(** A call ends once the backend has answered [total + 1] times. *)
Lemma urlopen_returns (method : string) (answers : list Z) :
  ∀ r, 0 ≤ total r → (Z.to_nat (total r) + 1 ≤ length answers)%nat →
    is_Some (urlopen r method answers).
Proof.
  induction answers as [|status rest IH]; intros r Hr Hlen;
    [simpl in Hlen; lia|]. simpl.
  destruct (is_retry r method status); [|done].
  destruct (increment r) as [r'|] eqn:Hinc; [|done].
  apply increment_total in Hinc as [Ht Hpos].
  destruct (IH r' Hpos) as [y ->]; [simpl in Hlen; lia|done].
Qed.

(** C4. What [_retry_strategy] makes of a call: a status outside
    502/503/504 (every 4xx) is returned after one attempt; 503 then 200
    returns the 200; no call sends more than four requests, and a call
    returns once the backend has answered four times; a GET answered 503
    every time is sent four times (the first attempt and [total = 3]
    retries), with pauses of 0, 1 and 2 seconds, and ends with the 503
    response handed back ([raise_on_status=False]). *)
Theorem retry_strategy_behaviour :
  (∀ method status rest, status ∉ [502; 503; 504] →
     urlopen _retry_strategy method (status :: rest)
     = Some (mkRun (Returned status) 1 []))
  ∧ urlopen _retry_strategy "GET" [503; 200] = Some (mkRun (Returned 200) 2 [0])
  ∧ (∀ method answers x, urlopen _retry_strategy method answers = Some x →
       (attempts x ≤ 4)%nat)
  ∧ (∀ method answers, (4 ≤ length answers)%nat →
       is_Some (urlopen _retry_strategy method answers))
  ∧ (∀ rest, urlopen _retry_strategy "GET" (503 :: 503 :: 503 :: 503 :: rest)
             = Some (mkRun (Returned 503) 4 [0; 1000; 2000])).
Proof.
  split; [|split; [|split; [|split]]].
  - intros method status rest Hs. simpl. unfold is_retry. simpl.
    by rewrite (bool_decide_eq_false_2 (status ∈ _)), andb_false_r.
  - vm_compute. reflexivity.
  - intros method answers x Hx.
    by apply (urlopen_attempts_bound method answers _retry_strategy x).
  - intros method answers Hlen.
    by apply (urlopen_returns method answers _retry_strategy).
  - intros rest. vm_compute. reflexivity.
Qed.

End retry.

(** *** The connection manager *)

Section connection_manager.
Import ConnectionManager.
Variable send_json : nat → string → outcome unit.


End connection_manager.

Section connection_manager_claims.
Import ConnectionManager.




End connection_manager_claims.

(** *** The parallel fetch *)

Section fetch_parallel.
Import FetchParallel.
Context {A : Type}.
Implicit Types (jobs : list (HttpClient.Context * @task A)).
Implicit Types (futures : list (@future A)) (schedule : list nat).

Lemma complete_length jobs futures i :
  length (complete jobs futures i) = length futures.
Proof.
  unfold complete. destruct (jobs !! i) as [[ctx fn]|]; [|done].
  by rewrite length_insert.
Qed.

Lemma foldl_complete_length jobs schedule : ∀ futures,
  length (foldl (complete jobs) futures schedule) = length futures.
Proof.
  induction schedule as [|i schedule IH]; intros futures; [done|].
  simpl. by rewrite IH, complete_length.
Qed.

(** A future nobody finishes keeps its state. *)
Lemma foldl_complete_other jobs schedule : ∀ futures i,
  i ∉ schedule →
  foldl (complete jobs) futures schedule !! i = futures !! i.
Proof.
  induction schedule as [|k schedule IH]; intros futures i Hi; [done|].
  apply not_elem_of_cons in Hi as [Hne Hi]. simpl. rewrite IH by done.
  unfold complete. destruct (jobs !! k) as [[ctx fn]|]; [|done].
  by rewrite list_lookup_insert_ne.
Qed.

(** A finished future holds the outcome of its own job, whatever else the
    pool finished before or after it. *)
Lemma foldl_complete_done jobs schedule : ∀ futures i ctx fn,
  length futures = length jobs →
  i ∈ schedule → jobs !! i = Some (ctx, fn) →
  foldl (complete jobs) futures schedule !! i = Some (Some (fn ctx)).
Proof.
  induction schedule as [|k schedule IH]; intros futures i ctx fn Hlen Hi Hjob.
  - by apply not_elem_of_nil in Hi.
  - simpl. destruct (decide (i ∈ schedule)) as [Hin|Hout].
    + apply IH; [by rewrite complete_length|done|done].
    + apply elem_of_cons in Hi as [->|]; [|done].
      rewrite foldl_complete_other by done.
      unfold complete. rewrite Hjob.
      apply list_lookup_insert_eq.
      apply lookup_lt_Some in Hjob. unfold future, task in *. lia.
Qed.

Lemma run_pool_complete jobs schedule :
  schedule ≡ₚ seq 0 (length jobs) →
  run_pool jobs schedule = (λ job, Some (job.2 job.1)) <$> jobs.
Proof.
  intros Hperm. unfold run_pool. apply list_eq. intros i.
  rewrite list_lookup_fmap. unfold task, future in *.
  destruct (jobs !! i) as [[ctx fn]|] eqn:Hjob; simpl.
  - apply foldl_complete_done; [by rewrite length_replicate| |done].
    rewrite Hperm. apply elem_of_seq. apply lookup_lt_Some in Hjob. lia.
  - apply lookup_ge_None. rewrite foldl_complete_length, length_replicate.
    by apply lookup_ge_None in Hjob.
Qed.

Lemma zip_copies (ctx : HttpClient.Context) (funcs : list (@task A)) :
  zip ((λ _, copy_context ctx) <$> funcs) funcs = (λ f, (ctx, f)) <$> funcs.
Proof. induction funcs as [|f funcs IH]; [done|]. simpl. by f_equal. Qed.

(** Both branches of [_fetch_parallel] join the outcomes of the callables in
    the order they were passed. *)
Lemma fetch_parallel_join (funcs : list (@task A)) ctx schedule :
  complete_schedule funcs schedule →
  _fetch_parallel funcs ctx schedule = join ((λ f, Some (f ctx)) <$> funcs).
Proof.
  intros Hperm. unfold _fetch_parallel. case_bool_decide; [done|].
  cbv zeta. rewrite zip_copies, run_pool_complete.
  - by rewrite <- list_fmap_compose.
  - by rewrite length_fmap.
Qed.

Lemma join_returned (ctx : HttpClient.Context) (funcs : list (@task A))
    (results : list A) :
  Forall2 (λ f a, f ctx = Returned a) funcs results →
  join ((λ f, Some (f ctx)) <$> funcs) = Some (Returned results).
Proof.
  induction 1 as [|f a funcs results Hf _ IH]; [done|].
  rewrite fmap_cons. cbn [join]. by rewrite Hf, IH.
Qed.

Lemma join_raised (ctx : HttpClient.Context) (funcs : list (@task A)) :
  ∀ i f e,
    funcs !! i = Some f → f ctx = Raised e →
    (∀ j g, (j < i)%nat → funcs !! j = Some g → ∃ a, g ctx = Returned a) →
    join ((λ f, Some (f ctx)) <$> funcs) = Some (Raised e).
Proof.
  induction funcs as [|g funcs IH]; intros i f e Hi Hf Hbefore; [done|].
  rewrite fmap_cons. cbn [join]. destruct i as [|i]; simpl in Hi.
  - injection Hi as ->. by rewrite Hf.
  - destruct (Hbefore 0%nat g) as [a Ha]; [lia|done|]. rewrite Ha.
    rewrite (IH i f e); [done|done|done|].
    intros j h Hj Hh. apply (Hbefore (S j) h); [lia|done].
Qed.

(** The join raises only the exception of the first callable that raised. *)
Lemma join_raised_inv (ctx : HttpClient.Context) (funcs : list (@task A)) :
  ∀ e, join ((λ f, Some (f ctx)) <$> funcs) = Some (Raised e) →
    ∃ i f, funcs !! i = Some f ∧ f ctx = Raised e
           ∧ ∀ j g, (j < i)%nat → funcs !! j = Some g → ∃ a, g ctx = Returned a.
Proof.
  induction funcs as [|g funcs IH]; intros e; [done|].
  rewrite fmap_cons. cbn [join].
  destruct (g ctx) as [a|e'|e'] eqn:Hg; [| |done].
  - destruct (join ((λ f, Some (f ctx)) <$> funcs)) as [[l|e'|e']|] eqn:Hj;
      [done| |done|done].
    intros [= <-]. destruct (IH e' eq_refl) as (i & f & Hi & Hf & Hbefore).
    exists (S i), f. split; [done|]. split; [done|].
    intros [|j] h Hj' Hh; simpl in Hh.
    + injection Hh as <-. by exists a.
    + apply (Hbefore j h); [lia|done].
  - intros [= <-]. exists 0%nat, g. split; [done|]. split; [done|].
    intros j h Hj. lia.
Qed.

(** The join returns a list only when every callable returned. *)
Lemma join_returned_inv (ctx : HttpClient.Context) (funcs : list (@task A)) :
  ∀ results, join ((λ f, Some (f ctx)) <$> funcs) = Some (Returned results) →
    Forall2 (λ f a, f ctx = Returned a) funcs results.
Proof.
  induction funcs as [|g funcs IH]; intros results.
  - intros [= <-]. constructor.
  - rewrite fmap_cons. cbn [join].
    destruct (g ctx) as [a|e'|e'] eqn:Hg; [|done|done].
    destruct (join ((λ f, Some (f ctx)) <$> funcs)) as [[l|e'|e']|] eqn:Hj;
      [|done|done|done].
    intros [= <-]. constructor; [done|]. by apply IH.
Qed.

End fetch_parallel.

Section fetch_parallel_claims.
Import FetchParallel.

(** C6. For every ordered sequence of callables none of which raises, and
    every order in which the pool finishes them, [_fetch_parallel] returns
    the results of the callables in the order the callables were passed. *)
Theorem fetch_parallel_positional {A : Type}
    (funcs : list (@task A)) (ctx : HttpClient.Context)
    (schedule : list nat) (results : list A) :
  complete_schedule funcs schedule →
  Forall2 (λ f a, f ctx = Returned a) funcs results →
  _fetch_parallel funcs ctx schedule = Some (Returned results).
Proof.
  intros Hperm Hres. rewrite fetch_parallel_join by done.
  by apply join_returned.
Qed.

(** The second callable finishes first, the third next, the first last. *)
Lemma fetch_parallel_positional_witness :
  _fetch_parallel [fetch_dashboard; fetch_with_token; fetch_dashboard]
    (HttpClient.mkContext (Some "jwt") None) [1; 2; 0]%nat
  = Some (Returned ["dashboard"; "jwt"; "dashboard"]).
Proof.
  apply (fetch_parallel_positional
           [fetch_dashboard; fetch_with_token; fetch_dashboard]
           (HttpClient.mkContext (Some "jwt") None) [1; 2; 0]%nat
           ["dashboard"; "jwt"; "dashboard"]).
  - unfold complete_schedule. simpl.
    change [1; 2; 0]%nat with ([1; 2] ++ [0])%nat.
    change [0; 1; 2]%nat with ([0] ++ [1; 2])%nat.
    apply Permutation_app_comm.
  - repeat constructor.
Defined.

(** C7, as stated, fails: of three callables the first and the third raise
    and the second returns; whatever the pool does, the caller gets the
    exception of the first and nothing else: no slot holds the result of
    the second, and the exception of the third propagates nowhere. *)
Lemma fetch_parallel_drops_siblings :
  let funcs := [fetch_failing; fetch_dashboard; fetch_failing_late] in
  let ctx := HttpClient.mkContext (Some "jwt") None in
  _fetch_parallel funcs ctx [1; 2; 0]%nat = Some (Raised "HTTPError 500")
  ∧ fetch_dashboard ctx = Returned "dashboard"
  ∧ fetch_failing_late ctx = Raised "HTTPError 404".
Proof. repeat split; reflexivity. Qed.

(** C7, amended. For every sequence of callables and every order in which
    the pool finishes them: when some callable raises, the exception of the
    first callable in positional order that raised propagates to the caller
    when the results are joined; an exception that reaches the caller is
    always that one, so the exception of a later callable is never seen;
    and a list of results comes back only when no callable raised, so the
    results of the siblings of a failed callable are not handed out. *)
Theorem fetch_parallel_first_failure {A : Type}
    (funcs : list (@task A)) (ctx : HttpClient.Context) (schedule : list nat) :
  complete_schedule funcs schedule →
  (∀ i f e, funcs !! i = Some f → f ctx = Raised e →
     (∀ j g, (j < i)%nat → funcs !! j = Some g → ∃ a, g ctx = Returned a) →
     _fetch_parallel funcs ctx schedule = Some (Raised e))
  ∧ (∀ e, _fetch_parallel funcs ctx schedule = Some (Raised e) →
       ∃ i f, funcs !! i = Some f ∧ f ctx = Raised e
              ∧ ∀ j g, (j < i)%nat → funcs !! j = Some g →
                  ∃ a, g ctx = Returned a)
  ∧ (∀ results, _fetch_parallel funcs ctx schedule = Some (Returned results) →
       Forall2 (λ f a, f ctx = Returned a) funcs results).
Proof.
  intros Hperm. rewrite fetch_parallel_join by done.
  split; [|split].
  - intros i f e Hi Hf Hbefore. by eapply join_raised.
  - apply join_raised_inv.
  - apply join_returned_inv.
Qed.

Lemma fetch_parallel_first_failure_witness :
  let funcs := [fetch_dashboard; fetch_failing; fetch_failing_late] in
  let ctx := HttpClient.mkContext (Some "jwt") None in
  let schedule := [1; 2; 0]%nat in
  (∀ i f e, funcs !! i = Some f → f ctx = Raised e →
     (∀ j g, (j < i)%nat → funcs !! j = Some g → ∃ a, g ctx = Returned a) →
     _fetch_parallel funcs ctx schedule = Some (Raised e))
  ∧ (∀ e, _fetch_parallel funcs ctx schedule = Some (Raised e) →
       ∃ i f, funcs !! i = Some f ∧ f ctx = Raised e
              ∧ ∀ j g, (j < i)%nat → funcs !! j = Some g →
                  ∃ a, g ctx = Returned a)
  ∧ (∀ results, _fetch_parallel funcs ctx schedule = Some (Returned results) →
       Forall2 (λ f a, f ctx = Returned a) funcs results).
Proof.
  apply (fetch_parallel_first_failure
           [fetch_dashboard; fetch_failing; fetch_failing_late]
           (HttpClient.mkContext (Some "jwt") None) [1; 2; 0]%nat).
  unfold complete_schedule. simpl.
  change [1; 2; 0]%nat with ([1; 2] ++ [0])%nat.
  change [0; 1; 2]%nat with ([0] ++ [1; 2])%nat.
  apply Permutation_app_comm.
Defined.

(** The futures and the joined result of the run above: the failure sits in
    slot 1, slots 0 and 2 hold their results, and the join raises. *)
Example fetch_parallel_one_failure :
  let funcs := [fetch_dashboard; fetch_failing; fetch_with_token] in
  let ctx := HttpClient.mkContext (Some "jwt") None in
  run_pool (zip ((λ _, copy_context ctx) <$> funcs) funcs) [1; 2; 0]%nat
  = [Some (Returned "dashboard"); Some (Raised "HTTPError 500");
     Some (Returned "jwt")]
  ∧ _fetch_parallel funcs ctx [1; 2; 0]%nat = Some (Raised "HTTPError 500").
Proof. split; reflexivity. Qed.

End fetch_parallel_claims.

(** *** More on the rate limiter *)

Section rate_limiter_more.
Import RateLimiter RateLimiterTraces.

Lemma cleanup_lists_bounded self now :
  lists_bounded self → lists_bounded (_maybe_cleanup self now).
Proof.
  intros Hb. unfold _maybe_cleanup. case_bool_decide; [done|].
  intros k v. simpl. intros [Hv _]%map_lookup_filter_Some. by apply (Hb k).
Qed.

Lemma is_allowed_lists_bounded self key now :
  0 ≤ max_requests self →
  lists_bounded self → lists_bounded (is_allowed self key now).2.
Proof.
  intros Hmax Hb%(cleanup_lists_bounded _ now).
  destruct (cleanup_fields self now) as [Hm Hw].
  unfold is_allowed. set (self' := _maybe_cleanup self now) in *.
  set (kept := filter _ _).
  assert (Z.of_nat (length kept) ≤ max_requests self') as Hkept.
  { unfold kept, requests_of.
    destruct (_requests self' !! key) as [v|] eqn:Hv; simpl; [|lia].
    pose proof (Hb key v Hv). pose proof (length_filter
      (λ t, now - window_seconds self' < t) v). lia. }
  case_bool_decide as Hfull; intros k v; simpl; rewrite lookup_insert;
    destruct (decide (key = k)) as [->|]; try apply (Hb k).
  - by intros [= <-].
  - intros [= <-]. rewrite length_app. simpl. lia.
Qed.

Lemma is_allowed_fields self key now :
  max_requests (is_allowed self key now).2 = max_requests self
  ∧ window_seconds (is_allowed self key now).2 = window_seconds self.
Proof.
  unfold is_allowed. destruct (cleanup_fields self now) as [Hm Hw].
  by case_bool_decide.
Qed.

Lemma run_lists_bounded calls : ∀ self,
  0 ≤ max_requests self →
  lists_bounded self → lists_bounded (run self calls).2.
Proof.
  induction calls as [|[k now] rest IH]; intros self Hmax Hb; [done|].
  simpl. pose proof (is_allowed_lists_bounded self k now Hmax Hb) as Hb1.
  pose proof (is_allowed_fields self k now) as [Hm _].
  destruct (is_allowed self k now) as [b self1]. simpl in *.
  specialize (IH self1). rewrite Hm in IH. specialize (IH Hmax Hb1).
  by destruct (run self1 rest).
Qed.

(** X1. Whatever calls are made, at whatever clock readings, a limiter with
    a limit [max_requests >= 0] never stores more than [max_requests]
    timestamps for a caller key. *)
Theorem stored_timestamps_bounded
    (max w : Z) (calls : list (string * Z)) (key : string) :
  0 ≤ max →
  Z.of_nat (length (requests_of (run (init max w) calls).2 key)) ≤ max.
Proof.
  intros Hmax.
  assert (lists_bounded (run (init max w) calls).2) as Hb.
  { apply run_lists_bounded; [done|]. intros k v. simpl.
    by rewrite lookup_empty. }
  pose proof (run_fields calls (init max w)) as [Hm _]. simpl in Hm.
  unfold requests_of.
  destruct (_requests (run (init max w) calls).2 !! key) as [v|] eqn:Hv;
    simpl; [|lia].
  rewrite <- Hm. by eapply Hb.
Qed.

Lemma stored_timestamps_bounded_witness :
  Z.of_nat (length (requests_of
     (run (init 2 60) [("10.0.0.1", 0); ("10.0.0.1", 1); ("10.0.0.1", 2)]).2
     "10.0.0.1")) ≤ 2.
Proof.
  apply (stored_timestamps_bounded 2 60
           [("10.0.0.1", 0); ("10.0.0.1", 1); ("10.0.0.1", 2)] "10.0.0.1").
  lia.
Defined.

End rate_limiter_more.

Section rate_limiter_observations.
Import RateLimiter RateLimiterTraces.

(** Two limiters with the same limit and window that stand in the invariant
    with the same admission times answer every further call alike. *)
Lemma same_answers calls : ∀ s1 s2 (h : string → list Z) t,
  (∀ key, inv key s1 (h key) t) → (∀ key, inv key s2 (h key) t) →
  max_requests s1 = max_requests s2 → window_seconds s1 = window_seconds s2 →
  clock_ok t calls →
  (run s1 calls).1 = (run s2 calls).1.
Proof.
  induction calls as [|[k now] rest IH]; intros s1 s2 h t H1 H2 Hm Hw Hck;
    [done|].
  destruct Hck as [Hnow Hck].
  assert (∀ key, inv key s1 (h key) now) as H1' by (intros; by eapply inv_mono).
  assert (∀ key, inv key s2 (h key) now) as H2' by (intros; by eapply inv_mono).
  pose proof (is_allowed_answer k s1 (h k) now (H1' k)) as Ha1.
  pose proof (is_allowed_answer k s2 (h k) now (H2' k)) as Ha2.
  rewrite <- Hm, <- Hw, <- Ha1 in Ha2.
  pose proof (λ key, is_allowed_inv key s1 (h key) k now (H1' key)) as Hs1.
  pose proof (λ key, is_allowed_inv key s2 (h key) k now (H2' key)) as Hs2.
  pose proof (is_allowed_fields s1 k now) as [Hm1 Hw1].
  pose proof (is_allowed_fields s2 k now) as [Hm2 Hw2].
  simpl. destruct (is_allowed s1 k now) as [b1 s1'].
  destruct (is_allowed s2 k now) as [b2 s2']. simpl in *. subst b2.
  specialize (IH s1' s2'
    (λ key, h key ++ (if bool_decide (k = key) && b1 then [now] else []))
    now Hs1 Hs2).
  specialize (IH ltac:(congruence) ltac:(congruence) Hck).
  destruct (run s1' rest), (run s2' rest). simpl in *. by f_equal.
Qed.

(** The answers to the calls of [key] depend on the calls of [key] only. *)
Lemma answers_of_alone key calls : ∀ s1 s2 hist t,
  inv key s1 hist t → inv key s2 hist t →
  max_requests s1 = max_requests s2 → window_seconds s1 = window_seconds s2 →
  clock_ok t calls →
  answers_of key calls (run s1 calls).1 = (run s2 (calls_of key calls)).1.
Proof.
  induction calls as [|[k now] rest IH]; intros s1 s2 hist t H1 H2 Hm Hw Hck;
    [done|].
  destruct Hck as [Hnow Hck].
  apply (inv_mono _ _ _ _ now) in H1; [|done].
  apply (inv_mono _ _ _ _ now) in H2; [|done].
  pose proof (is_allowed_inv key s1 hist k now H1) as Hs1.
  pose proof (is_allowed_fields s1 k now) as [Hm1 Hw1].
  unfold calls_of. rewrite filter_cons. simpl.
  destruct (decide (k = key)) as [->|Hne].
  - pose proof (is_allowed_answer key s1 hist now H1) as Ha1.
    pose proof (is_allowed_answer key s2 hist now H2) as Ha2.
    rewrite <- Hm, <- Hw, <- Ha1 in Ha2.
    pose proof (is_allowed_inv key s2 hist key now H2) as Hs2.
    pose proof (is_allowed_fields s2 key now) as [Hm2 Hw2].
    simpl. destruct (is_allowed s1 key now) as [b1 s1'].
    destruct (is_allowed s2 key now) as [b2 s2']. simpl in *. subst b2.
    specialize (IH s1' s2' _ now Hs1 Hs2).
    specialize (IH ltac:(congruence) ltac:(congruence) Hck).
    fold (calls_of key rest).
    destruct (run s1' rest), (run s2' (calls_of key rest)). simpl in *.
    rewrite bool_decide_eq_true_2 by done. by f_equal.
  - rewrite (bool_decide_eq_false_2 (k = key)) in Hs1 by done.
    simpl in Hs1. rewrite app_nil_r in Hs1.
    destruct (is_allowed s1 k now) as [b1 s1']. simpl in *.
    specialize (IH s1' s2 hist now Hs1 H2).
    specialize (IH ltac:(congruence) ltac:(congruence) Hck).
    fold (calls_of key rest).
    destruct (run s1' rest). simpl in *.
    by rewrite bool_decide_eq_false_2.
Qed.

Lemma clock_ok_app (l1 l2 : list (string * Z)) : ∀ t0 k now,
  clock_ok t0 (l1 ++ (k, now) :: l2) →
  clock_ok t0 l1 ∧ Forall (λ c, c.2 ≤ now) l1 ∧ t0 ≤ now ∧ clock_ok now l2.
Proof.
  induction l1 as [|[k1 t1] l1 IH]; intros t0 k now; simpl.
  - intros [? ?]. repeat split; [constructor|done|done].
  - intros [Ht1 Hrest]. destruct (IH _ _ _ Hrest) as (H1 & H2 & H3 & H4).
    repeat split; try done; [|lia]. constructor; [simpl; lia|done].
Qed.

(** After [pre], at any time [now] no call of [pre] came after, the limiter
    stands in the invariant of every key with that key's admission times. *)
Lemma after_run_inv (max w : Z) (pre : list (string * Z)) (t0 now : Z) :
  0 ≤ max → clock_ok t0 pre → Forall (λ c, c.2 ≤ now) pre → t0 ≤ now →
  ∀ key, inv key (run (init max w) pre).2
           (admitted key pre (run (init max w) pre).1) now.
Proof.
  intros Hmax Hck Hle Ht key.
  by apply (run_inv key pre (init max w) [] t0 now); [apply inv_init|..].
Qed.

(** X2. One caller cannot use up another caller's quota: over any sequence
    of calls made at clock readings that never run backwards, the answers
    given to the calls of a key are the answers the key would get if its
    calls were the only ones. *)
Theorem callers_independent
    (max w : Z) (key : string) (calls : list (string * Z)) (t0 : Z) :
  0 ≤ max → clock_ok t0 calls →
  answers_of key calls (run (init max w) calls).1
  = (run (init max w) (calls_of key calls)).1.
Proof.
  intros Hmax Hck.
  apply (answers_of_alone key calls (init max w) (init max w) [] t0);
    try done; by apply inv_init.
Qed.

Lemma callers_independent_witness :
  answers_of "a"
    [("a", 0); ("b", 1); ("b", 2); ("a", 3); ("b", 4); ("a", 5)]
    (run (init 2 60)
       [("a", 0); ("b", 1); ("b", 2); ("a", 3); ("b", 4); ("a", 5)]).1
  = (run (init 2 60)
       (calls_of "a"
          [("a", 0); ("b", 1); ("b", 2); ("a", 3); ("b", 4); ("a", 5)])).1.
Proof.
  apply (callers_independent 2 60 "a"
           [("a", 0); ("b", 1); ("b", 2); ("a", 3); ("b", 4); ("a", 5)] 0).
  - lia.
  - simpl. lia.
Defined.

(** X3. A rejected call has no side effect a caller can see: after any
    sequence of calls, if a call is answered [False], every later sequence
    of calls gets the answers it would get had the rejected call not been
    made (clock readings never running backwards). *)
Theorem rejected_call_unobservable
    (max w : Z) (pre post : list (string * Z)) (k : string) (now t0 : Z) :
  0 ≤ max → clock_ok t0 (pre ++ (k, now) :: post) →
  (is_allowed (run (init max w) pre).2 k now).1 = false →
  (run (is_allowed (run (init max w) pre).2 k now).2 post).1
  = (run (run (init max w) pre).2 post).1.
Proof.
  intros Hmax Hck Hrej.
  apply clock_ok_app in Hck as (Hpre & Hle & Ht & Hpost).
  pose proof (after_run_inv max w pre t0 now Hmax Hpre Hle Ht) as Hinv.
  pose proof (is_allowed_fields (run (init max w) pre).2 k now) as [Hm Hw].
  eapply (same_answers post _ _ _ now); [|exact Hinv|done|done|done].
  intros key.
  pose proof (is_allowed_inv key _ _ k now (Hinv key)) as Hstep.
  by rewrite Hrej, andb_false_r, app_nil_r in Hstep.
Qed.

Lemma rejected_call_unobservable_witness :
  (run (is_allowed (run (init 1 60) [("a", 0)]).2 "a" 10).2
     [("a", 30); ("a", 61)]).1
  = (run (run (init 1 60) [("a", 0)]).2 [("a", 30); ("a", 61)]).1.
Proof.
  apply (rejected_call_unobservable 1 60 [("a", 0)] [("a", 30); ("a", 61)]
           "a" 10 0).
  - lia.
  - simpl. lia.
  - vm_compute. reflexivity.
Defined.

(** X4. The sweep of stale keys cannot be seen in the answers: after any
    sequence of calls, whatever [_last_cleanup] reads (so whether and when
    the next sweep runs), every later sequence of calls gets the same
    answers (clock readings never running backwards). *)
Theorem sweep_unobservable
    (max w : Z) (pre post : list (string * Z)) (last t0 : Z) :
  0 ≤ max → clock_ok t0 (pre ++ post) →
  (run (with_last_cleanup (run (init max w) pre).2 last) post).1
  = (run (run (init max w) pre).2 post).1.
Proof.
  intros Hmax Hck. destruct post as [|[k now] post]; [done|].
  apply clock_ok_app in Hck as (Hpre & Hle & Ht & Hpost).
  pose proof (after_run_inv max w pre t0 now Hmax Hpre Hle Ht) as Hinv.
  eapply (same_answers _ _ _ _ now); [|exact Hinv|done|done|by split].
  intros key. destruct (Hinv key) as [H1 H2 H3 H4]. by split.
Qed.

Lemma sweep_unobservable_witness :
  (run (with_last_cleanup (run (init 1 60) [("a", 0); ("b", 5)]).2 (-1000))
     [("a", 30); ("b", 64); ("a", 70)]).1
  = (run (run (init 1 60) [("a", 0); ("b", 5)]).2
       [("a", 30); ("b", 64); ("a", 70)]).1.
Proof.
  apply (sweep_unobservable 1 60 [("a", 0); ("b", 5)]
           [("a", 30); ("b", 64); ("a", 70)] (-1000) 0).
  - lia.
  - simpl. lia.
Defined.

End rate_limiter_observations.

(** *** More on the connection manager *)

Section registry.
Import ConnectionManager.

Lemma remove_not_in (x : nat) (l : list nat) : x ∉ l → remove x l = l.
Proof.
  induction l as [|y l IH]; [done|]. intros [Hne Hin]%not_elem_of_cons.
  simpl. rewrite decide_False by done. by rewrite IH.
Qed.

Lemma remove_snoc (x : nat) (l : list nat) : x ∉ l → remove x (l ++ [x]) = l.
Proof.
  induction l as [|y l IH]; intros Hin; simpl.
  - by rewrite decide_True.
  - apply not_elem_of_cons in Hin as [Hne Hin].
    rewrite decide_False by done. by rewrite IH.
Qed.

Lemma elem_of_remove (x y : nat) (l : list nat) :
  NoDup l → y ∈ remove x l ↔ y ∈ l ∧ y ≠ x.
Proof.
  induction 1 as [|z l Hz Hnd IH]; simpl.
  - set_solver.
  - destruct (decide (x = z)) as [->|Hne].
    + split; [|set_solver]. intros Hy. split; [set_solver|].
      intros ->. done.
    + rewrite !elem_of_cons, IH. naive_solver.
Qed.

Lemma disconnect_connections (self : t) (ws : nat) :
  active_connections (disconnect self ws) = remove ws (active_connections self).
Proof.
  unfold disconnect. case_bool_decide; [done|]. by rewrite remove_not_in.
Qed.

(** Only registered connections are pushed to. *)
Lemma broadcast_loop_delivered send_json message (conns : list nat) : ∀ eff,
  Forall (λ d, d ∈ delivered eff ∨ d.1 ∈ conns)
    (delivered (broadcast_loop send_json conns message eff).2).
Proof.
  induction conns as [|c rest IH]; intros eff; simpl.
  - apply Forall_forall. by left.
  - destruct (send_json c message) as [[]|exc|exc].
    + eapply Forall_impl; [apply IH|]. simpl. intros d [Hd|Hd].
      * apply elem_of_app in Hd as [?|Hd]; [by left|].
        apply list_elem_of_singleton in Hd as ->.
        right. simpl. apply list_elem_of_here.
      * right. by apply list_elem_of_further.
    + eapply Forall_impl; [apply IH|]. simpl. intros d [Hd|Hd]; [by left|].
      right. by apply list_elem_of_further.
    + apply Forall_forall. by left.
Qed.

(** X5. On a registry without duplicates, [disconnect] takes the socket out
    and leaves every other connection registered; calling it again changes
    nothing; and a broadcast after it pushes nothing to that socket. *)
Theorem disconnect_removes (self : t) (ws : nat) :
  NoDup (active_connections self) →
  (ws ∉ active_connections (disconnect self ws))
  ∧ disconnect (disconnect self ws) ws = disconnect self ws
  ∧ (∀ c, c ≠ ws →
       (c ∈ active_connections (disconnect self ws)
        ↔ c ∈ active_connections self))
  ∧ (∀ send_json message,
       Forall (λ d, d.1 ≠ ws)
         (delivered (broadcast send_json (disconnect self ws) message).2)).
Proof.
  intros Hnd.
  assert (ws ∉ active_connections (disconnect self ws)) as Hout.
  { rewrite disconnect_connections, elem_of_remove by done. naive_solver. }
  split; [done|]. split; [|split].
  - unfold disconnect at 1. by rewrite bool_decide_eq_false_2.
  - intros c Hc. rewrite disconnect_connections, elem_of_remove by done.
    naive_solver.
  - intros send_json message. unfold broadcast.
    pose proof (broadcast_loop_delivered send_json message
                  (active_connections (disconnect self ws)) (mkEffects [] []))
      as Hd.
    destruct (broadcast_loop _ _ _ _) as [res eff]. simpl in *.
    eapply Forall_impl; [exact Hd|]. simpl. intros d [Hin|Hin] Heq.
    + by apply not_elem_of_nil in Hin.
    + apply Hout. by rewrite Heq in Hin.
Qed.

Lemma disconnect_removes_witness :
  let self := mk [4; 1; 7]%nat in
  (1%nat ∉ active_connections (disconnect self 1))
  ∧ disconnect (disconnect self 1) 1 = disconnect self 1
  ∧ (∀ c, c ≠ 1%nat →
       (c ∈ active_connections (disconnect self 1)
        ↔ c ∈ active_connections self))
  ∧ (∀ send_json message,
       Forall (λ d, d.1 ≠ 1%nat)
         (delivered (broadcast send_json (disconnect self 1) message).2)).
Proof.
  apply (disconnect_removes (mk [4; 1; 7]%nat) 1).
  simpl. by apply (bool_decide_unpack _).
Defined.

End registry.

Section websocket_stream.
Import ConnectionManager WebSocketStream.
Variable send_ack : string → outcome unit.

(** The loop ends at the first raise of [receive_text()], or earlier when an
    acknowledgement fails; either way the socket is disconnected and the
    acknowledged texts are a prefix of the received ones. *)
Lemma stream_loop_ends (self : t) (ws : nat) (msgs : list string) (exc : string)
    (rest : list (outcome string)) : ∀ acks,
  (∀ d e, send_ack d ≠ RaisedBase e) →
  ∃ done_, stream_loop send_ack self ws
             ((Returned <$> msgs) ++ Raised exc :: rest) acks
           = Some (Returned (), disconnect self ws, acks ++ done_)
         ∧ done_ `prefix_of` msgs
         ∧ ((∀ d, d ∈ msgs → send_ack d = Returned ()) → done_ = msgs).
Proof.
  intros acks Hbase. revert acks.
  induction msgs as [|d msgs IH]; intros acks.
  - exists []. rewrite app_nil_r. split; [done|]. split; [done|done].
  - rewrite fmap_cons. cbn [app stream_loop].
    destruct (send_ack d) as [[]|e|e] eqn:Hd.
    + destruct (IH (acks ++ [d])) as (done_ & Heq & Hpre & Hall).
      exists (d :: done_). rewrite Heq, <- app_assoc. split; [done|]. split.
      * by apply prefix_cons.
      * intros Hok. f_equal. apply Hall. intros d' Hd'. apply Hok.
        by apply list_elem_of_further.
    + exists []. rewrite app_nil_r. split; [done|]. split.
      * apply prefix_nil.
      * intros Hok. specialize (Hok d (list_elem_of_here _ _)). congruence.
    + by destruct (Hbase d e).
Qed.

End websocket_stream.

Section websocket_stream_claims.
Import ConnectionManager WebSocketStream.

(** X6. A stream handler leaves the registry as it found it: when the
    socket was not registered before, the handshake succeeds, the client
    sends any texts and then [receive_text()] raises (the client closed, or
    an error), and no acknowledgement raises a [BaseException], the handler
    returns with the registry equal to the one before it ran; the texts it
    acknowledged are a prefix of the texts received, all of them when every
    acknowledgement went through. *)
Theorem websocket_stream_unregisters
    (send_ack : string → outcome unit) (self : t) (ws : nat)
    (msgs : list string) (exc : string) (rest : list (outcome string)) :
  ws ∉ active_connections self →
  (∀ d e, send_ack d ≠ RaisedBase e) →
  ∃ acks,
    websocket_stream (Returned ()) send_ack self ws
      ((Returned <$> msgs) ++ Raised exc :: rest)
    = Some (Returned (), self, acks)
    ∧ acks `prefix_of` msgs
    ∧ ((∀ d, d ∈ msgs → send_ack d = Returned ()) → acks = msgs).
Proof.
  intros Hnew Hbase. unfold websocket_stream.
  destruct (stream_loop_ends send_ack (connect self ws) ws msgs exc rest []
              Hbase) as (acks & -> & Hpre & Hall).
  exists acks. split; [|done]. simpl. do 2 f_equal.
  unfold disconnect, connect. simpl.
  rewrite bool_decide_eq_true_2 by set_solver.
  rewrite remove_snoc by done. by destruct self.
Qed.

Lemma websocket_stream_unregisters_witness :
  ∃ acks,
    websocket_stream (Returned ()) ack_ok (mk [4; 7]%nat) 5
      ((Returned <$> ["ping"; "pong"]) ++ Raised "WebSocketDisconnect" :: [])
    = Some (Returned (), mk [4; 7]%nat, acks)
    ∧ acks `prefix_of` ["ping"; "pong"]
    ∧ ((∀ d, d ∈ ["ping"; "pong"] → ack_ok d = Returned ())
       → acks = ["ping"; "pong"]).
Proof.
  apply (websocket_stream_unregisters ack_ok (mk [4; 7]%nat) 5
           ["ping"; "pong"] "WebSocketDisconnect" []).
  - simpl. by apply (bool_decide_unpack _).
  - intros d e. discriminate.
Defined.

End websocket_stream_claims.

(** *** More on the HTTP client *)

Section auth_headers.
Import HttpClient.

(** X7. The authorization header of an outbound call: with a non-empty
    token attached to the context, the header is the token itself exactly
    when the lower-cased token starts with "bearer ", and "Bearer " followed
    by the token exactly when it does not, so its lower-cased value always
    starts with "bearer "; with no token or the empty token attached there
    is no authorization header; and an [Authorization] header supplied by
    the caller replaces the one made from the token. *)
Theorem authorization_header (w : World) (c : nat) :
  match truthy (request_token_get w c) with
  | Some t =>
      ∃ v, get_auth_headers w c None !! "Authorization" = Some v
           ∧ (PyStr.startswith "bearer " (PyStr.lower t) = true → v = t)
           ∧ (PyStr.startswith "bearer " (PyStr.lower t) = false →
                v = String.append "Bearer " t)
           ∧ PyStr.startswith "bearer " (PyStr.lower v) = true
  | None => get_auth_headers w c None !! "Authorization" = None
  end
  ∧ (∀ h v, h !! "Authorization" = Some v →
       _merge_headers w c (Some h) !! "Authorization" = Some v)
  ∧ (∀ h, h !! "Authorization" = None →
       _merge_headers w c (Some h) !! "Authorization"
       = get_auth_headers w c None !! "Authorization").
Proof.
  split; [|split].
  - unfold get_auth_headers. cbn [truthy].
    destruct (truthy (request_token_get w c)) as [t|]; [|done].
    rewrite lookup_insert_eq.
    destruct (PyStr.startswith "bearer " (PyStr.lower t)) eqn:Hpre.
    + exists t. split; [done|]. split; [done|]. split; [done|done].
    + exists (String.append "Bearer " t). split; [done|].
      split; [done|]. split; [done|]. by destruct t.
  - intros h v Hv. unfold _merge_headers.
    by erewrite lookup_union_Some_l.
  - intros h Hh. unfold _merge_headers. by rewrite lookup_union_r.
Qed.

(** A token with the scheme in front is passed on as it is, in its own
    letter case; a bare token gets the scheme. *)
Example authorization_header_runs :
  get_auth_headers (set_request_token 1 (Some "bearer abc") empty_world) 1 None
    !! "Authorization" = Some "bearer abc"
  ∧ get_auth_headers (set_request_token 1 (Some "abc") empty_world) 1 None
      !! "Authorization" = Some "Bearer abc"
  ∧ get_auth_headers (set_request_token 1 (Some "") empty_world) 1 None
      !! "Authorization" = None.
Proof. vm_compute. repeat split; reflexivity. Qed.

End auth_headers.

Section cache_lifetime.
Import HttpClient Flows CacheOwner.
Variable session_send : list Request → Request → outcome Response.

Lemma init_request_cache_active (c : nat) (w : World) :
  cache_active (init_request_cache c w) c ∅.
Proof.
  exists (fresh (dom (dicts w))). unfold request_cache_get, context_of.
  unfold init_request_cache. simpl. by rewrite !lookup_insert_eq.
Qed.

(** X8. The cache never outlives the request that enabled it: right after
    [init_request_cache()] (whatever the context held before) and right
    after [clear_request_cache()], a [get] of any URL goes out to the
    backend. *)
Theorem cache_starts_empty (c : nat) (u : string)
    (hdrs : option (gmap string string)) (tmo : option Z) (w : World) :
  sent (get session_send c u hdrs tmo (init_request_cache c w)).2
  = sent w ++ [get_request (init_request_cache c w) c u hdrs tmo]
  ∧ sent (get session_send c u hdrs tmo (clear_request_cache c w)).2
    = sent w ++ [get_request (clear_request_cache c w) c u hdrs tmo].
Proof.
  split.
  - rewrite get_miss_sent; [done|].
    destruct (init_request_cache_active c w) as (d & -> & Hd).
    unfold cached_response. by rewrite Hd.
  - refine (proj1 (get_disabled session_send c u hdrs tmo
                     (clear_request_cache c w) _)).
    unfold request_cache_get, clear_request_cache.
    rewrite context_of_set_context. by rewrite decide_True.
Qed.

Lemma session_call_cache_active (r : Request) (w : World) c m :
  cache_active w c m → cache_active (session_call session_send r w).2 c m.
Proof. done. Qed.

(** X9. Writes do not invalidate the cache: once the cache of a request
    holds a response for a URL, a [get] of that URL made after any [post],
    [put] or [delete] in the same request still returns the stored
    response, and no call goes out for it. *)
Theorem cached_get_survives_writes (c : nat) (u : string) (w : World)
    (m : gmap string Response) (r : Response) (u' : string)
    (hdrs hdrs' : option (gmap string string)) (tmo tmo' : option Z) :
  cache_active w c m → m !! u = Some r →
    get session_send c u hdrs tmo (post session_send c u' hdrs' tmo' w).2
    = (Returned r, (post session_send c u' hdrs' tmo' w).2)
    ∧ get session_send c u hdrs tmo (put session_send c u' hdrs' tmo' w).2
      = (Returned r, (put session_send c u' hdrs' tmo' w).2)
    ∧ get session_send c u hdrs tmo (delete session_send c u' hdrs' tmo' w).2
      = (Returned r, (delete session_send c u' hdrs' tmo' w).2).
Proof.
  intros Hact Hr.
  repeat split; eapply get_hit; try exact Hr;
    by apply session_call_cache_active.
Qed.

(** X10. The worker contexts of a request share its cache: when a context
    copied from request [a] fetches a URL that is not cached and the answer
    is successful, a [get] of that URL in [a] afterwards returns that
    response without a call. *)
Theorem worker_fills_parent_cache (a child : nat) (u : string) (w : World)
    (m : gmap string Response) (r : Response)
    (hdrs hdrs' : option (gmap string string)) (tmo tmo' : option Z) :
  cache_active w a m → m !! u = None →
  session_send (sent w)
    (get_request (copy_context a child w) child u hdrs tmo) = Returned r →
  ok r = true →
  let w1 := copy_context a child w in
  let w2 := (get session_send child u hdrs tmo w1).2 in
  get session_send a u hdrs' tmo' w2 = (Returned r, w2)
  ∧ sent w2 = sent w ++ [get_request w1 child u hdrs tmo].
Proof.
  intros (d & Hc & Hd) Hm Hsend Hok w1 w2.
  assert (request_cache_get w1 child = Some d) as Hchild.
  { unfold w1, request_cache_get, copy_context.
    rewrite context_of_set_context. by rewrite decide_True. }
  assert (request_cache_get w1 a = Some d) as Ha.
  { unfold w1, request_cache_get, copy_context.
    rewrite context_of_set_context. by destruct (decide (child = a)) as [->|]. }
  assert (cache_active w1 child m) as Hact1 by (by exists d).
  destruct (get_miss_stores session_send child u hdrs tmo w1 m r Hact1 Hm
              Hsend Hok) as [_ (d' & Hc2 & Hd2)].
  fold w2 in Hc2, Hd2.
  assert (∀ x, request_cache_get w2 x = request_cache_get w1 x) as Hsame.
  { intros x. unfold request_cache_get. f_equal.
    apply context_of_contexts, get_contexts. }
  rewrite Hsame, Hchild in Hc2. injection Hc2 as <-.
  split.
  - eapply get_hit; [|apply lookup_insert_eq].
    exists d. by rewrite Hsame.
  - unfold w2. rewrite get_miss_sent; [done|].
    rewrite Hchild. unfold cached_response.
    change (dicts w1) with (dicts w). by rewrite Hd, Hm.
Qed.

End cache_lifetime.

Section cache_lifetime_witnesses.
Import HttpClient Flows CacheOwner.

Lemma one_cached_active :
  cache_active one_cached 1
    {[ "http://localhost:8080/balance" :=
         mkResponse 200 "http://localhost:8080/balance" ]}.
Proof. eexists. split; vm_compute; reflexivity. Qed.

Lemma cached_get_survives_writes_witness :
  let u' := "http://localhost:8080/execute/buy" in
  let hdrs := None in let tmo := None in
  let hdrs' := None in let tmo' := Some 30 in
    get always_500 1 "http://localhost:8080/balance" hdrs tmo
      (post always_500 1 u' hdrs' tmo' one_cached).2
    = (Returned (mkResponse 200 "http://localhost:8080/balance"),
       (post always_500 1 u' hdrs' tmo' one_cached).2)
    ∧ get always_500 1 "http://localhost:8080/balance" hdrs tmo
        (put always_500 1 u' hdrs' tmo' one_cached).2
      = (Returned (mkResponse 200 "http://localhost:8080/balance"),
         (put always_500 1 u' hdrs' tmo' one_cached).2)
    ∧ get always_500 1 "http://localhost:8080/balance" hdrs tmo
        (delete always_500 1 u' hdrs' tmo' one_cached).2
      = (Returned (mkResponse 200 "http://localhost:8080/balance"),
         (delete always_500 1 u' hdrs' tmo' one_cached).2).
Proof.
  apply (cached_get_survives_writes always_500 1
           "http://localhost:8080/balance" one_cached _ _
           "http://localhost:8080/execute/buy" None None None (Some 30)
           one_cached_active).
  vm_compute. reflexivity.
Defined.

End cache_lifetime_witnesses.

Section worker_witness.
Import HttpClient Flows.

Lemma worker_fills_parent_cache_witness :
  let w := init_request_cache 1 empty_world in
  let u := "http://localhost:8080/dashboard" in
  let w1 := copy_context 1 2 w in
  let w2 := (get always_ok 2 u None (Some 10) w1).2 in
  get always_ok 1 u None (Some 10) w2 = (Returned (mkResponse 200 u), w2)
  ∧ sent w2 = sent w ++ [get_request w1 2 u None (Some 10)].
Proof.
  apply (worker_fills_parent_cache always_ok 1 2
           "http://localhost:8080/dashboard"
           (init_request_cache 1 empty_world) ∅
           (mkResponse 200 "http://localhost:8080/dashboard")
           None None (Some 10) (Some 10)).
  - apply init_request_cache_active.
  - reflexivity.
  - reflexivity.
  - reflexivity.
Defined.

End worker_witness.

Section cache_isolation.
Import HttpClient Flows CacheOwner.
Variable session_send : list Request → Request → outcome Response.

(** [get] in context [c] writes to no dict but the one [c] holds. *)
Lemma get_dicts_other c u hdrs tmo w d :
  request_cache_get w c ≠ Some d →
  dicts (get session_send c u hdrs tmo w).2 !! d = dicts w !! d.
Proof.
  intros Hc. unfold get. destruct (cached_response _ _ _); [done|]. simpl.
  destruct (session_send _ _) as [response| |]; [|done|done].
  destruct (request_cache_get w c) as [d'|]; [|done].
  destruct (ok response); [|done]. simpl.
  rewrite lookup_alter_ne; [done|]. congruence.
Qed.

Lemma get_dom c u hdrs tmo w :
  dom (dicts (get session_send c u hdrs tmo w).2) = dom (dicts w).
Proof.
  unfold get. destruct (cached_response _ _ _); [done|]. simpl.
  destruct (session_send _ _) as [response| |]; [|done|done].
  destruct (request_cache_get w c) as [d'|]; [|done].
  destruct (ok response); [|done]. simpl. apply dom_alter_L.
Qed.

(** A step of another context keeps the cache of [a] private and its dict
    as it is. *)
Lemma step_private (w : World) (e : event) (a d : nat) :
  private_cache w a d → ¬ runs_in a e → ¬ copies_into a e →
  private_cache (step session_send w e) a d
  ∧ dicts (step session_send w e) !! d = dicts w !! d.
Proof.
  intros (Ha & Hd & Hothers) Hrun Hcopy.
  assert (request_cache_get (step session_send w e) a = Some d) as Ha'.
  { unfold request_cache_get. by rewrite step_other. }
  destruct e as [c act]. unfold runs_in in Hrun. simpl in Hrun.
  assert (request_cache_get w c ≠ Some d) as Hc by (by apply Hothers).
  destruct act as [token| | |child|u]; simpl in *.
  - split; [split; [done|split; [done|]]|done].
    intros x Hx. unfold request_cache_get, set_request_token.
    rewrite context_of_set_context.
    destruct (decide (c = x)) as [->|]; [done|by apply Hothers].
  - assert (fresh (dom (dicts w)) ≠ d) as Hfresh.
    { intros Heq. apply (is_fresh (dom (dicts w))). by rewrite Heq. }
    split; [split; [done|split]|].
    + unfold init_request_cache. simpl. apply elem_of_dom.
      rewrite lookup_insert_ne by done. by apply elem_of_dom.
    + intros x Hx. unfold request_cache_get, context_of, init_request_cache.
      simpl. rewrite lookup_insert. destruct (decide (c = x)) as [->|].
      * simpl. congruence.
      * by apply Hothers.
    + unfold init_request_cache. simpl. by rewrite lookup_insert_ne.
  - split; [split; [done|split; [done|]]|done].
    intros x Hx. unfold request_cache_get, clear_request_cache.
    rewrite context_of_set_context.
    destruct (decide (c = x)) as [->|]; [done|by apply Hothers].
  - split; [split; [done|split; [done|]]|done].
    intros x Hx. unfold request_cache_get, copy_context.
    rewrite context_of_set_context.
    destruct (decide (child = x)) as [->|]; [done|by apply Hothers].
  - split; [split; [done|split]|].
    + by rewrite get_dom.
    + intros x Hx. unfold request_cache_get.
      rewrite (context_of_contexts w _ x (get_contexts session_send c u _ _ w)).
      by apply Hothers.
    + by apply get_dicts_other.
Qed.

Lemma run_private (trace : list event) : ∀ w a d,
  private_cache w a d →
  Forall (λ e, ¬ runs_in a e ∧ ¬ copies_into a e) trace →
  private_cache (run session_send w trace) a d
  ∧ dicts (run session_send w trace) !! d = dicts w !! d.
Proof.
  induction trace as [|e trace IH]; intros w a d Hp Hall; [done|].
  apply Forall_cons in Hall as [[Hrun Hcopy] Hall].
  destruct (step_private w e a d Hp Hrun Hcopy) as [Hp' Hd'].
  destruct (IH _ a d Hp' Hall) as [Hp'' Hd'']. split; [done|].
  unfold run in *. simpl. by rewrite Hd'', Hd'.
Qed.

(** A new cache is private when every dict held by a context exists. *)
Lemma init_private (a : nat) (w : World) :
  caches_exist w →
  private_cache (init_request_cache a w) a (fresh (dom (dicts w))).
Proof.
  intros Hex. split; [|split].
  - unfold request_cache_get, context_of, init_request_cache. simpl.
    by rewrite lookup_insert_eq.
  - unfold init_request_cache. simpl. apply elem_of_dom.
    by rewrite lookup_insert_eq.
  - intros c Hc Hheld.
    unfold request_cache_get, context_of, init_request_cache in Hheld.
    simpl in Hheld. rewrite lookup_insert_ne in Hheld by done.
    apply (is_fresh (dom (dicts w))). by apply (Hex c).
Qed.

(** X11. Requests do not see each other's cache: when request [a] holds a
    cache dict that no other context holds, no sequence of steps made in
    other contexts (attaching tokens, enabling and clearing caches, copying
    contexts, fetching URLs), none of them a copy into [a], changes what
    the cache of [a] holds. *)
Theorem cache_isolated (w : World) (a d : nat) (m : gmap string Response)
    (trace : list event) :
  private_cache w a d → dicts w !! d = Some m →
  Forall (λ e, ¬ runs_in a e ∧ ¬ copies_into a e) trace →
  cache_active (run session_send w trace) a m
  ∧ ∀ u, cached_response (run session_send w trace)
           (request_cache_get (run session_send w trace) a) u
         = m !! u.
Proof.
  intros Hp Hm Hall.
  destruct (run_private trace w a d Hp Hall) as [(Ha & _ & _) Hd].
  rewrite Hm in Hd. split; [by exists d|].
  intros u. rewrite Ha. unfold cached_response. by rewrite Hd.
Qed.

End cache_isolation.

Section cache_isolation_witness.
Import HttpClient Flows CacheOwner.

Lemma cache_isolated_witness :
  let w := init_request_cache 1 empty_world in
  let trace := [(2, SetToken (Some "jwt-B")); (2, InitCache);
                (2, Get "http://localhost:8080/balance");
                (2, CopyContext 3);
                (3, Get "http://localhost:8080/holdings");
                (2, ClearCache)]%nat in
  cache_active (run always_ok w trace) 1 ∅
  ∧ ∀ u, cached_response (run always_ok w trace)
           (request_cache_get (run always_ok w trace) 1) u
         = (∅ : gmap string Response) !! u.
Proof.
  apply (cache_isolated always_ok (init_request_cache 1 empty_world) 1
           (fresh (dom (dicts empty_world))) ∅).
  - apply init_private. intros c d. vm_compute. discriminate.
  - vm_compute. reflexivity.
  - repeat constructor; unfold runs_in, copies_into; simpl;
      try lia; intros [p [= ]].
Defined.

End cache_isolation_witness.

(** *** More on the endpoints and the validator *)

Section endpoint_errors.
Import HttpClient Endpoints.

(** X12. The endpoints do not pass an agent's exception on to the caller:
    whatever [Exception] the agent raises, an agent endpoint raises the
    HTTP 500 error with its fixed detail and nothing else, and [/mcp/query]
    raises no [Exception] at all but returns its fixed error dict. *)
Theorem endpoint_errors_generic :
  (∀ run_agent detail c p token w e,
     (execute_agent_endpoint run_agent detail c p token w).1 = Raised e →
     e = String.append "HTTPException 500: " detail)
  ∧ (∀ run_agent detail c p token w e,
       (run_agent c (query p) (userId p)
          (init_request_cache c (set_request_token c (Some token) w))).1
       = Raised e →
       (execute_agent_endpoint run_agent detail c p token w).1
       = Raised (String.append "HTTPException 500: " detail))
  ∧ (∀ orchestrate c p token w e,
       (mcp_query_endpoint orchestrate c p token w).1 ≠ Raised e)
  ∧ (∀ orchestrate c p token w e,
       (orchestrate c (userId p) (query p) (sessionId p)
          (init_request_cache c (set_request_token c (Some token) w))).1
       = Raised e →
       (mcp_query_endpoint orchestrate c p token w).1
       = Returned
           (ErrorDict "Internal server error"
              "Failed to process your request. Please try again later.")).
Proof.
  split; [|split; [|split]].
  - intros run_agent detail c p token w e.
    unfold execute_agent_endpoint, try_finally, try_except.
    destruct (run_agent _ _ _ _) as [[r| |] w']; simpl; congruence.
  - intros run_agent detail c p token w e.
    unfold execute_agent_endpoint, try_finally, try_except.
    destruct (run_agent _ _ _ _) as [[r| |] w']; simpl; congruence.
  - intros orchestrate c p token w e.
    unfold mcp_query_endpoint, try_finally, try_except.
    destruct (orchestrate _ _ _ _ _) as [[r| |] w']; simpl; congruence.
  - intros orchestrate c p token w e.
    unfold mcp_query_endpoint, try_finally, try_except.
    destruct (orchestrate _ _ _ _ _) as [[r| |] w']; simpl; congruence.
Qed.

End endpoint_errors.

Section blank_query.
Import MCPQueryRequest PyStr PyStrSpace.







End blank_query.

(** *** The fetch helpers of the strategy tools *)

Section strategy_fetch.
Import HttpClient StrategyFetch.
Variable session_send : list Request → Request → outcome Response.
Variable response_json : Response → option json.

(** What a list helper makes of the call underneath it. *)
Lemma fetch_list_spec (unwrap : bool) (u : string) (c : nat) (w : World) :
  let call := get session_send c u None (Some 10) w in
  let res := fetch_list session_send response_json unwrap u c w in
  res.2 = call.2
  ∧ (∀ e, res.1 ≠ Raised e)
  ∧ (∀ e, call.1 = Raised e → res.1 = Returned [])
  ∧ (∀ r, call.1 = Returned r → ok r = false → res.1 = Returned [])
  ∧ (∀ r, call.1 = Returned r → response_json r = None → res.1 = Returned [])
  ∧ (∀ l, res.1 = Returned l → l ≠ [] →
       ∃ r payload, call.1 = Returned r ∧ ok r = true
                    ∧ response_json r = Some payload
                    ∧ (if unwrap then _unwrap payload else payload) = JList l).
Proof.
  unfold fetch_list, _fetch_json. cbv zeta.
  destruct (get session_send c u None (Some 10) w) as [[r|e|e] w1]; simpl.
  - destruct (ok r) eqn:Hok; simpl.
    + destruct (response_json r) as [payload|] eqn:Hj; simpl.
      * repeat split; try done; try congruence.
        intros l [= <-] Hne. exists r, payload. repeat split; try done.
        by destruct (if unwrap then _unwrap payload else payload).
      * repeat split; try done; try congruence;
          try (intros l [= <-] Hne; done).
    + repeat split; try done; try congruence;
        try (intros l [= <-] Hne; done).
  - repeat split; try done; try congruence;
      try (intros l [= <-] Hne; done).
  - repeat split; try done.
Qed.

(** X16. The list helpers of the strategy tools never raise an
    [Exception]: each of [_get_holdings], [_get_dashboard] and
    [_get_transactions] does what one [get] of its URL does to the state
    and nothing more, returns the empty list when that call raises, when it
    is answered with an error status and when the body is no JSON, and
    returns a non-empty list only when the backend sent that list with a
    successful response ([_get_holdings] after unwrapping [data]). *)
Theorem list_helpers_never_raise (API_BASE : string) (c : nat) (w : World) :
  Forall
    (λ '(helper, path, unwrap),
       let call :=
         get session_send c (String.append API_BASE path) None (Some 10) w in
       let res : outcome (list json) * World := helper c w in
       res.2 = call.2
       ∧ (∀ e, res.1 ≠ Raised e)
       ∧ (∀ e, call.1 = Raised e → res.1 = Returned [])
       ∧ (∀ r, call.1 = Returned r → ok r = false → res.1 = Returned [])
       ∧ (∀ r, call.1 = Returned r → response_json r = None →
            res.1 = Returned [])
       ∧ (∀ l, res.1 = Returned l → l ≠ [] →
            ∃ r payload,
              call.1 = Returned r ∧ ok r = true
              ∧ response_json r = Some payload
              ∧ (if unwrap : bool then _unwrap payload else payload)
                = JList l))
    [(_get_holdings session_send response_json API_BASE, "/holdings", true);
     (_get_dashboard session_send response_json API_BASE, "/dashboard", false);
     (_get_transactions session_send response_json API_BASE, "/transactions",
      false)].
Proof.
  repeat constructor; try apply fetch_list_spec.
  all: cbv zeta; intros; eapply fetch_list_spec; eauto.
Qed.

End strategy_fetch.

Section strategy_fetch_examples.
Import HttpClient StrategyFetch.

(** A wrapped list comes back unwrapped; an error status gives the empty
    list; a second fetch in the same request is served from the cache. *)
Example get_holdings_runs :
  let w := init_request_cache 1 empty_world in
  let '(r1, w1) :=
    _get_holdings Flows.always_ok one_share "http://b" 1 w in
  let '(r2, w2) :=
    _get_holdings Flows.always_ok one_share "http://b" 1 w1 in
  r1 = Returned [JDict [("symbol", JString "AAPL")]]
  ∧ r2 = r1 ∧ length (sent w2) = 1%nat
  ∧ (_get_holdings Flows.always_500 one_share "http://b" 1 w).1 = Returned [].
Proof. vm_compute. repeat split; reflexivity. Qed.

End strategy_fetch_examples.

(** *** The symbol list of the bulk tools *)

Section strip_facts.
Import PyStr ProfileSymbols.

Lemma isspace_upper (a : Ascii.ascii) : isspace (upper_ascii a) = isspace a.
Proof. destruct a as [[] [] [] [] [] [] [] []]; vm_compute; reflexivity. Qed.

Lemma upper_ascii_idemp (a : Ascii.ascii) :
  upper_ascii (upper_ascii a) = upper_ascii a.
Proof. destruct a as [[] [] [] [] [] [] [] []]; vm_compute; reflexivity. Qed.

Lemma upper_idemp (s : string) : upper (upper s) = upper s.
Proof.
  unfold upper. induction s as [|a s IH]; [done|]. simpl.
  by rewrite upper_ascii_idemp, IH.
Qed.

Lemma lstrip_upper (s : string) : lstrip (upper s) = upper (lstrip s).
Proof.
  unfold upper. induction s as [|a s IH]; [done|]. simpl.
  rewrite isspace_upper. by destruct (isspace a).
Qed.

Lemma rstrip_upper (s : string) : rstrip (upper s) = upper (rstrip s).
Proof.
  unfold upper. induction s as [|a s IH]; [done|]. simpl. rewrite IH.
  destruct (rstrip s) as [|b r]; simpl; [|done].
  rewrite isspace_upper. by destruct (isspace a).
Qed.

Lemma strip_upper (s : string) : strip (upper s) = upper (strip s).
Proof. unfold strip. by rewrite lstrip_upper, rstrip_upper. Qed.

Lemma lstrip_starts_clean (s : string) : starts_clean (lstrip s).
Proof.
  induction s as [|a s IH]; [done|]. simpl.
  by destruct (isspace a) eqn:Ha.
Qed.

Lemma lstrip_clean (s : string) : starts_clean s → lstrip s = s.
Proof. destruct s as [|a s]; [done|]. simpl. by intros ->. Qed.

Lemma rstrip_starts_clean (s : string) :
  starts_clean s → starts_clean (rstrip s).
Proof.
  destruct s as [|a s]; [done|]. simpl. intros Ha.
  destruct (rstrip s); simpl; [by rewrite Ha|done].
Qed.

Lemma rstrip_idemp (s : string) : rstrip (rstrip s) = rstrip s.
Proof.
  induction s as [|a s IH]; [done|]. simpl.
  destruct (rstrip s) as [|b r] eqn:Hr.
  - destruct (isspace a) eqn:Ha; [done|]. simpl. by rewrite Ha.
  - cbn [rstrip] in *. by rewrite IH.
Qed.

Lemma strip_idemp (s : string) : strip (strip s) = strip s.
Proof.
  unfold strip.
  rewrite (lstrip_clean (rstrip (lstrip s))).
  - apply rstrip_idemp.
  - apply rstrip_starts_clean, lstrip_starts_clean.
Qed.

End strip_facts.

Section sym_list_facts.
Import PyStr ProfileSymbols.

Lemma eqb_upper_comma (a : Ascii.ascii) :
  Ascii.eqb (upper_ascii a) comma = Ascii.eqb a comma.
Proof. destruct a as [[] [] [] [] [] [] [] []]; vm_compute; reflexivity. Qed.

Lemma has_comma_upper (s : string) :
  has_char comma (upper s) = has_char comma s.
Proof.
  unfold upper. induction s as [|a s IH]; [done|]. simpl.
  by rewrite eqb_upper_comma, IH.
Qed.

Lemma has_char_lstrip (c : Ascii.ascii) (s : string) :
  has_char c s = false → has_char c (lstrip s) = false.
Proof.
  induction s as [|a s IH]; [done|]. simpl.
  intros [Ha Hs]%orb_false_iff. destruct (isspace a); [by apply IH|].
  simpl. by rewrite Ha, Hs.
Qed.

Lemma has_char_rstrip (c : Ascii.ascii) (s : string) :
  has_char c s = false → has_char c (rstrip s) = false.
Proof.
  induction s as [|a s IH]; [done|]. simpl.
  intros [Ha Hs]%orb_false_iff. specialize (IH Hs).
  destruct (rstrip s) as [|b r].
  - destruct (isspace a); [done|]. simpl. by rewrite Ha.
  - cbn [has_char] in *. by rewrite Ha, IH.
Qed.

Lemma split_comma_no_comma (s : string) :
  Forall (λ x, has_char comma x = false) (split_comma s).
Proof.
  induction s as [|a s IH]; [by repeat constructor|]. simpl.
  destruct (Ascii.eqb a comma) eqn:Ha; [by constructor|].
  destruct (split_comma s) as [|x xs]; [by repeat constructor; simpl; rewrite Ha|].
  apply Forall_cons in IH as [Hx Hxs]. constructor; [|done].
  simpl. by rewrite Ha, Hx.
Qed.

Lemma nonempty_upper (s : string) : nonempty (upper s) = nonempty s.
Proof. by destruct s. Qed.

(** X17. Every symbol the bulk tools put into the request body is a clean
    ticker: for every input string, each element of the symbol list is
    non-empty, has no white space at either end, is in upper case and
    holds no comma. *)
Theorem sym_list_clean (symbols : string) :
  Forall (λ e, nonempty e = true ∧ strip e = e ∧ upper e = e
               ∧ has_char comma e = false)
    (sym_list symbols).
Proof.
  unfold sym_list. apply Forall_fmap.
  pose proof (split_comma_no_comma symbols) as Hno.
  induction Hno as [|x xs Hx _ IH]; [constructor|]. simpl.
  destruct (nonempty (strip x)) eqn:Hne; [|done].
  constructor; [|done]. simpl. repeat split.
  - by rewrite nonempty_upper.
  - by rewrite strip_upper, strip_idemp.
  - apply upper_idemp.
  - rewrite has_comma_upper. unfold strip.
    by apply has_char_rstrip, has_char_lstrip.
Qed.

(** Blank and empty pieces are dropped, the others trimmed and
    upper-cased. *)
Example sym_list_runs :
  sym_list " aapl, ,msft ,,Googl" = ["AAPL"; "MSFT"; "GOOGL"]
  ∧ sym_list "" = [] ∧ sym_list " , ," = [].
Proof. repeat split; reflexivity. Qed.

End sym_list_facts.
